(** * nest-schedule: the job registry of [src/lib/scheduler.ts]

    A shallow embedding of the static class [Scheduler]: the map of jobs, the
    four schedule operations, [queueJob], [cancelJob], [cancelJobs] and the
    fire handlers they install on the trigger source.  JavaScript objects are
    finite maps from property names to values, job objects live in a store
    and the registry holds references to them, and an [async] handler is cut
    at its [await]: the part before it runs when the trigger fires, the part
    after it runs when the executor's promise resolves. *)

From stdpp Require Import gmap strings list fin_maps.

Open Scope string_scope.
Open Scope list_scope.

(** ** JavaScript values and objects *)

#[warnings="-register-all"] Inductive val :=
  | VUndef
  | VNull
  | VBool (b : bool)
  | VNum (n : Z)
  | VStr (s : string)
  | VDate (t : Z)
  | VFun (id : nat)
  | VObj (o : gmap string val).

Abbreviation obj := (gmap string val).

(** [if (v)]: the values the language treats as true. *)
Definition truthy (v : val) : bool :=
  match v with
  | VUndef | VNull => false
  | VBool b => b
  | VNum n => negb (n =? 0)%Z
  | VStr s => negb (String.eqb s EmptyString)
  | VDate _ | VFun _ | VObj _ => true
  end.

(** [o.f]: a property that is not there reads as [undefined]. *)
Definition prop (o : obj) (f : string) : val := default VUndef (o !! f).

(** [typeof v === 'object'] *)
Definition typeof_object (v : val) : bool :=
  match v with
  | VNull | VDate _ | VObj _ => true
  | _ => false
  end.

(** [{ ...v }]: the own enumerable properties of [v]. *)
Definition spread (v : val) : obj :=
  match v with
  | VObj o => o
  | _ => ∅
  end.

(** [Object.assign({}, src1, ..., srcn)]: sources are copied from left to
    right, a later one overwrites an earlier one, and a source that is
    [undefined] is skipped. *)
Definition assign (srcs : list (option obj)) : obj :=
  foldl (λ acc src, from_option (λ o, o ∪ acc) acc src) ∅ srcs.

(** ** Jobs *)

(** Modelled from the spec: [src/lib/constants.ts] is not among the sources;
    the spec gives the status enum as READY and RUNNING. *)
Inductive jstatus := READY | RUNNING.

Global Instance jstatus_eq_dec : EqDecision jstatus.
Proof. solve_decision. Defined.

Inductive jtype := cron | interval | timeout.

Global Instance jtype_eq_dec : EqDecision jtype.
Proof. solve_decision. Defined.

Abbreviation loc := nat (only parsing).
Abbreviation handle := nat (only parsing).

(** The object literal of [addJob], with the two fields [queueJob] reads from
    a declared job ([method], [tryLock]). *)
Record IJob := mkJob {
  type : jtype;
  config : option obj;
  key : string;
  method : val;
  tryLock : val;
  timer : option handle;
  instance : option handle;
  status : jstatus;
}.

Definition with_status (st : jstatus) (j : IJob) : IJob :=
  {| type := type j; config := config j; key := key j; method := method j;
     tryLock := tryLock j; timer := timer j; instance := instance j;
     status := st |}.

(** ** The trigger source and suspended handlers *)

(** Which piece of code a closure or a suspended run belongs to. *)
Inductive origin := OCron | OInterval | OTimeout | ORecurrence | OImmediate.

Global Instance origin_eq_dec : EqDecision origin.
Proof. solve_decision. Defined.

(** The variables a handler closes over. *)
Record closure := mkClosure {
  c_origin : origin;
  c_key : string;
  c_configs : obj;
  c_cb : val;
  c_tryLock : val;
}.

(** What was handed to the trigger source: [schedule.scheduleJob(spec, fn)]
    with an object, [schedule.scheduleJob(new schedule.RecurrenceRule(args),
    fn)], [setInterval(fn, ms)] or [setTimeout(fn, ms)]. *)
Inductive source :=
  | SRule (spec : obj)
  | SRecurrence (args : list val)
  | SInterval (ms : val)
  | STimeout (ms : val).

Record registration := mkReg {
  reg_source : source;
  reg_handler : closure;
}.

(** An async function stopped at [await executor.execute(key, cb, tryLock)]:
    [p_job] is the reference it read from the registry before the await. *)
Record pending := mkPending {
  p_env : closure;
  p_job : loc;
}.

Inductive event :=
  | EStatus (l : loc) (old new : jstatus)
  | EExecute (k : string) (cb : val) (lock : val) (configs : obj).

Inductive exn :=
  | JobRepeatException (msg : string)
  | TypeError.

(** ** State *)

Record state := mkState {
  jobs : gmap string loc;
  heap : gmap loc IJob;
  next_loc : loc;
  triggers : gmap handle registration;
  next_handle : handle;
  suspended : list pending;
  log : list event;
}.

Definition init : state :=
  {| jobs := ∅; heap := ∅; next_loc := 0; triggers := ∅; next_handle := 0;
     suspended := []; log := [] |}.

Definition set_jobs (f : gmap string loc → gmap string loc) (s : state) : state :=
  {| jobs := f (jobs s); heap := heap s; next_loc := next_loc s;
     triggers := triggers s; next_handle := next_handle s;
     suspended := suspended s; log := log s |}.

Definition set_heap (f : gmap loc IJob → gmap loc IJob) (s : state) : state :=
  {| jobs := jobs s; heap := f (heap s); next_loc := next_loc s;
     triggers := triggers s; next_handle := next_handle s;
     suspended := suspended s; log := log s |}.

Definition set_triggers (f : gmap handle registration → gmap handle registration)
    (s : state) : state :=
  {| jobs := jobs s; heap := heap s; next_loc := next_loc s;
     triggers := f (triggers s); next_handle := next_handle s;
     suspended := suspended s; log := log s |}.

Definition set_suspended (f : list pending → list pending) (s : state) : state :=
  {| jobs := jobs s; heap := heap s; next_loc := next_loc s;
     triggers := triggers s; next_handle := next_handle s;
     suspended := f (suspended s); log := log s |}.

Definition emit (e : event) (s : state) : state :=
  {| jobs := jobs s; heap := heap s; next_loc := next_loc s;
     triggers := triggers s; next_handle := next_handle s;
     suspended := suspended s; log := log s ++ [e] |}.

(** ** A state and exception monad *)

Inductive result (A : Type) :=
  | Ret (a : A)
  | Throw (e : exn).
Arguments Ret {A} a.
Arguments Throw {A} e.

Definition M (A : Type) : Type := state → result A * state.

Definition ret {A} (a : A) : M A := λ s, (Ret a, s).
Definition throw {A} (e : exn) : M A := λ s, (Throw e, s).
Definition bind {A B} (m : M A) (k : A → M B) : M B :=
  λ s, match m s with
       | (Ret a, s') => k a s'
       | (Throw e, s') => (Throw e, s')
       end.
Definition get : M state := λ s, (Ret s, s).
Definition modify (f : state → state) : M unit := λ s, (Ret tt, f s).

Declare Scope sched_scope.
Delimit Scope sched_scope with sched.
Notation "x <- m ;; k" := (bind m (λ x, k))
  (at level 100, m at next level, k at level 200, right associativity) : sched_scope.
Notation "m ;; k" := (bind m (λ _, k))
  (at level 100, k at level 200, right associativity) : sched_scope.
Open Scope sched_scope.

(** [v!.f] and friends: the access faults when [v] is [undefined]. *)
Definition nonnull {A} (o : option A) : M A :=
  match o with
  | Some a => ret a
  | None => throw TypeError
  end.

(** Modelled from the spec: [src/lib/defaults.ts] is not among the sources;
    this is the table of defaults of the spec's data model (enable true,
    maxRetry -1, retryInterval 5000, waiting false, immediate false,
    startTime and endTime unset).  The operations below take the imported
    object as a parameter; this one instantiates it in the concrete runs. *)
Definition spec_defaults : obj :=
  {[ "enable" := VBool true; "maxRetry" := VNum (-1);
     "retryInterval" := VNum 5000; "waiting" := VBool false;
     "immediate" := VBool false ]}.

(** ** The scheduler *)

Section Scheduler.

(** [src/lib/defaults.ts] is not among the sources: the operations take the
    imported object [defaults] as a parameter. *)
Variable defaults : obj.

(** [node-schedule] is not among the sources either.  [schedule.scheduleJob]
    answers [null] instead of a job when it cannot schedule what it is
    handed (a rule that does not parse, a rule with no invocation left);
    which specifications it can schedule is a parameter. *)
Variable schedulable : source → bool.

(** *** Store and trigger source primitives *)

(** Reading through a reference.  A reference always points to a live
    object ([refs_live] below); the faulting branch is there to keep the
    function total. *)
Definition load (l : loc) : M IJob :=
  s <- get ;; nonnull (heap s !! l).

(** [job.status = st] *)
Definition write_status (l : loc) (st : jstatus) : M unit :=
  j <- load l ;;
  modify (λ s, emit (EStatus l (status j) st)
                 (set_heap <[l := with_status st j]> s)).

(** [this.jobs.get(key)] *)
Definition jobs_get (k : string) : M (option loc) :=
  s <- get ;; ret (jobs s !! k).

(** A new handle of the trigger source: what [setInterval] and [setTimeout]
    do, and [schedule.scheduleJob] when it accepts. *)
Definition register (src : source) (fn : closure) : M handle :=
  s <- get ;;
  modify (λ s, {| jobs := jobs s; heap := heap s; next_loc := next_loc s;
                  triggers := <[next_handle s := mkReg src fn]> (triggers s);
                  next_handle := S (next_handle s);
                  suspended := suspended s; log := log s |}) ;;
  ret (next_handle s).

(** [schedule.scheduleJob(spec, fn)]: the new job, or [null] with nothing
    registered. *)
Definition scheduleJob (src : source) (fn : closure) : M (option handle) :=
  if schedulable src
  then h <- register src fn ;; ret (Some h)
  else ret None.

(** [instance.cancel()], [clearInterval(t)], [clearTimeout(t)] *)
Definition release (h : handle) : M unit :=
  modify (set_triggers (delete h)).

(** [clearInterval(undefined)] does nothing. *)
Definition clearTimer (t : option handle) : M unit :=
  match t with
  | Some h => release h
  | None => ret tt
  end.

(** [new Executor(configs)] and [await executor.execute(key, cb, tryLock)]:
    the run is recorded and the function is suspended. *)
Definition await_execute (env : closure) (job : loc) : M unit :=
  modify (λ s, set_suspended (λ ps, ps ++ [mkPending env job])
                 (emit (EExecute (c_key env) (c_cb env) (c_tryLock env)
                          (c_configs env)) s)).

(** *** [assertJobNotExist], [addJob], [cancelJob], [cancelJobs] *)

Definition assertJobNotExist (k : string) : M unit :=
  s <- get ;;
  if bool_decide (is_Some (jobs s !! k))
  then throw (JobRepeatException ("The job " +:+ k +:+ " is exists."))
  else ret tt.

Definition addJob (k : string) (ty : jtype) (cfg : option obj)
    (extra_instance extra_timer : option handle) : M unit :=
  modify (λ s, {| jobs := <[k := next_loc s]> (jobs s);
                  heap := <[next_loc s :=
                             {| type := ty; config := cfg; key := k;
                                method := VUndef; tryLock := VUndef;
                                timer := extra_timer;
                                instance := extra_instance;
                                status := READY |}]> (heap s);
                  next_loc := S (next_loc s);
                  triggers := triggers s; next_handle := next_handle s;
                  suspended := suspended s; log := log s |}).

Definition cancelJob (k : string) : M unit :=
  job <- jobs_get k ;;
  match job with
  | Some l =>
      j <- load l ;;
      match type j with
      | cron => h <- nonnull (instance j) ;; release h
      | interval => clearTimer (timer j)
      | timeout => clearTimer (timer j)
      end ;;
      modify (set_jobs (delete k))
  | None => ret tt
  end.

Fixpoint cancelEach (ks : list string) : M unit :=
  match ks with
  | [] => ret tt
  | k :: ks' => cancelJob k ;; cancelEach ks'
  end.

(** The keys are visited in the order of the map's key list. *)
Definition cancelJobs : M unit :=
  s <- get ;; cancelEach (map fst (map_to_list (jobs s))).

(** *** Fire handlers *)

(** Lines 143-152, 179-189 and 273-282: the part of the handler before the
    await, with the test for a missing entry. *)
Definition startChecked (env : closure) : M unit :=
  job <- jobs_get (c_key env) ;;
  match job with
  | None => ret tt
  | Some l =>
      j <- load l ;;
      if truthy (prop (c_configs env) "waiting")
         && negb (bool_decide (status j = READY))
      then ret tt
      else write_status l RUNNING ;; await_execute env l
  end.

(** Lines 107-116 and 226-235: [job!.status] on whatever the registry
    returned. *)
Definition startAsserted (env : closure) : M unit :=
  job <- jobs_get (c_key env) ;;
  skip <- (if truthy (prop (c_configs env) "waiting")
           then l <- nonnull job ;; j <- load l ;;
                ret (negb (bool_decide (status j = READY)))
           else ret false) ;;
  if skip then ret tt
  else l <- nonnull job ;; write_status l RUNNING ;; await_execute env l.

Definition runJobImmediately (k : string) (configs : obj) (cb lock : val) : M unit :=
  startChecked (mkClosure OImmediate k configs cb lock).

(** The handler a trigger runs when it fires. *)
Definition handler (env : closure) : M unit :=
  match c_origin env with
  | OCron | ORecurrence => startAsserted env
  | OInterval | OTimeout | OImmediate => startChecked env
  end.

(** The part after the await: [needStop] is what the executor resolved to.
    The timeout handler discards it and always cancels. *)
Definition resume (p : pending) (needStop : bool) : M unit :=
  write_status (p_job p) READY ;;
  match c_origin (p_env p) with
  | OTimeout => cancelJob (c_key (p_env p))
  | _ => if needStop then cancelJob (c_key (p_env p)) else ret tt
  end.

(** *** The schedule operations *)

(** The object handed to [schedule.scheduleJob] by [scheduleCronJob]. *)
Definition cronJob (rule : val) (cfg : option obj) : obj :=
  if typeof_object rule then spread rule
  else {[ "start" := match cfg with
                     | Some c => prop c "startTime"
                     | None => VNull
                     end;
          "end" := match cfg with
                   | Some c => prop c "endTime"
                   | None => VNull
                   end;
          "rule" := rule ]}.

Definition scheduleCronJob (k : string) (rule : val) (cb : val)
    (cfg : option obj) (lock : val) : M unit :=
  assertJobNotExist k ;;
  let configs := assign [Some defaults; cfg] in
  inst <- scheduleJob (SRule (cronJob rule cfg))
            (mkClosure OCron k configs cb lock) ;;
  addJob k cron cfg inst None ;;
  if truthy (prop configs "immediate")
  then runJobImmediately k configs cb lock
  else ret tt.

Definition scheduleIntervalJob (k : string) (ms : val) (cb : val)
    (cfg : option obj) (lock : val) : M unit :=
  assertJobNotExist k ;;
  let configs := assign [cfg; cfg] in
  t <- register (SInterval ms) (mkClosure OInterval k configs cb lock) ;;
  addJob k interval cfg None (Some t) ;;
  if truthy (prop configs "immediate")
  then runJobImmediately k configs cb lock
  else ret tt.

Definition scheduleTimeoutJob (k : string) (ms : val) (cb : val)
    (cfg : option obj) (lock : val) : M unit :=
  assertJobNotExist k ;;
  let configs := assign [Some defaults; cfg] in
  t <- register (STimeout ms) (mkClosure OTimeout k configs cb lock) ;;
  addJob k timeout cfg None (Some t) ;;
  if truthy (prop configs "immediate")
  then runJobImmediately k configs cb lock
  else ret tt.

(** [new schedule.RecurrenceRule(r.year, r.month, r.date, r.dayOfWeek,
    r.hour, r.minute, r.second, r.tz)]: the rule is the library's, so it is
    kept as the eight arguments of its constructor. *)
Definition RecurrenceRule (r : obj) : source :=
  SRecurrence (prop r <$>
    ["year"; "month"; "date"; "dayOfWeek"; "hour"; "minute"; "second"; "tz"]).

Definition scheduleRecurrenceJob (k : string) (recurrenceRule : obj) (cb : val)
    (cfg : option obj) (lock : val) : M unit :=
  assertJobNotExist k ;;
  let rule := RecurrenceRule recurrenceRule in
  let configs := assign [Some defaults; cfg] in
  inst <- scheduleJob rule (mkClosure ORecurrence k configs cb lock) ;;
  addJob k cron cfg inst None ;;
  if truthy (prop configs "immediate")
  then runJobImmediately k configs cb lock
  else ret tt.

Definition queueJob (job : IJob) : M unit :=
  let cfg := assign [Some defaults; config job] in
  if truthy (prop cfg "enable") then
    (if bool_decide (type job = cron)
     then scheduleCronJob (key job) (prop cfg "cron") (method job) (Some cfg)
            (tryLock job)
     else ret tt) ;;
    (if bool_decide (type job = interval)
     then c <- nonnull (config job) ;;
          scheduleIntervalJob (key job) (prop c "interval") (method job)
            (Some cfg) (tryLock job)
     else ret tt) ;;
    (if bool_decide (type job = timeout)
     then c <- nonnull (config job) ;;
          scheduleTimeoutJob (key job) (prop c "timeout") (method job)
            (Some cfg) (tryLock job)
     else ret tt)
  else ret tt.

(** *** The system: calls, firings and resolved runs *)

Inductive action :=
  | AQueueJob (job : IJob)
  | ACancelJob (k : string)
  | ACancelJobs
  | AScheduleCronJob (k : string) (rule cb : val) (cfg : option obj) (lock : val)
  | AScheduleIntervalJob (k : string) (ms cb : val) (cfg : option obj) (lock : val)
  | AScheduleTimeoutJob (k : string) (ms cb : val) (cfg : option obj) (lock : val)
  | AScheduleRecurrenceJob (k : string) (r : obj) (cb : val) (cfg : option obj)
      (lock : val)
  | AFire (h : handle)
  | AResolve (i : nat) (needStop : bool).

Definition call (a : action) : M unit :=
  match a with
  | AQueueJob job => queueJob job
  | ACancelJob k => cancelJob k
  | ACancelJobs => cancelJobs
  | AScheduleCronJob k rule cb cfg lock => scheduleCronJob k rule cb cfg lock
  | AScheduleIntervalJob k ms cb cfg lock => scheduleIntervalJob k ms cb cfg lock
  | AScheduleTimeoutJob k ms cb cfg lock => scheduleTimeoutJob k ms cb cfg lock
  | AScheduleRecurrenceJob k r cb cfg lock => scheduleRecurrenceJob k r cb cfg lock
  | _ => ret tt
  end.

(** A timer set with [setTimeout] is gone once it has fired; the other
    registrations stay until they are released. *)
Definition one_shot (src : source) : bool :=
  match src with
  | STimeout _ => true
  | _ => false
  end.

(** One step of the system.  A firing needs a live registration and a
    resolution needs a suspended run; a call that throws, and a handler
    whose promise is rejected, leave the state they reached. *)
Definition step (a : action) (s : state) : option state :=
  match a with
  | AFire h =>
      reg ← triggers s !! h;
      let s1 := if one_shot (reg_source reg)
                then set_triggers (delete h) s else s in
      Some (handler (reg_handler reg) s1).2
  | AResolve i needStop =>
      p ← suspended s !! i;
      Some (resume p needStop (set_suspended (delete i) s)).2
  | _ => Some (call a s).2
  end.

Fixpoint run (acts : list action) (s : state) : option state :=
  match acts with
  | [] => Some s
  | a :: acts' => s' ← step a s; run acts' s'
  end.

Definition reachable (s : state) : Prop := ∃ acts, run acts init = Some s.

(** *** Notions used by the statements *)

(** The handle [cancelJob] releases for a job. *)
Definition job_handle (j : IJob) : option handle :=
  match type j with
  | cron => instance j
  | interval | timeout => timer j
  end.

(** The merged configuration the schedule operation that created [j]
    computed for its handler. *)
Definition configs_of (j : IJob) : obj :=
  match type j with
  | interval => assign [config j; config j]
  | cron | timeout => assign [Some defaults; config j]
  end.

Definition waiting (j : IJob) : bool := truthy (prop (configs_of j) "waiting").

(** The two transitions the status field is meant to make. *)
Definition legal (old new : jstatus) : Prop :=
  (old = READY ∧ new = RUNNING) ∨ (old = RUNNING ∧ new = READY).

(** How many suspended runs hold a reference to [l]. *)
Definition in_flight (l : loc) (ps : list pending) : nat :=
  length (filter (λ p, p_job p = l) ps).

(** The states the operations pass through, written out. *)

(** Whether the trigger source hands out a handle for [src]: always for a
    timer, for [schedule.scheduleJob] when it can schedule the rule. *)
Definition handed_out (src : source) : bool :=
  match src with
  | SRule _ | SRecurrence _ => schedulable src
  | SInterval _ | STimeout _ => true
  end.

(** The object literal [addJob] stores for a new job; [h] is what the trigger
    source answered. *)
Definition fresh_job (k : string) (ty : jtype) (cfg : option obj)
    (h : option handle) : IJob :=
  {| type := ty; config := cfg; key := k; method := VUndef; tryLock := VUndef;
     timer := match ty with
              | cron => None
              | _ => h
              end;
     instance := match ty with
                 | cron => h
                 | _ => None
                 end;
     status := READY |}.

(** After the call of the trigger source and [addJob]. *)
Definition installed (src : source) (env : closure) (ty : jtype)
    (cfg : option obj) (s : state) : state :=
  {| jobs := <[c_key env := next_loc s]> (jobs s);
     heap := <[next_loc s :=
                fresh_job (c_key env) ty cfg
                  (if handed_out src then Some (next_handle s) else None)]>
               (heap s);
     next_loc := S (next_loc s);
     triggers := if handed_out src
                 then <[next_handle s := mkReg src env]> (triggers s)
                 else triggers s;
     next_handle := if handed_out src then S (next_handle s) else next_handle s;
     suspended := suspended s; log := log s |}.

(** After [job.status = RUNNING] and the call of the executor. *)
Definition started (env : closure) (l : loc) (j : IJob) (s : state) : state :=
  set_suspended (λ ps, ps ++ [mkPending env l])
    (emit (EExecute (c_key env) (c_cb env) (c_tryLock env) (c_configs env))
       (emit (EStatus l (status j) RUNNING)
          (set_heap <[l := with_status RUNNING j]> s))).

(** After [job.status = READY]. *)
Definition finished (l : loc) (j : IJob) (s : state) : state :=
  emit (EStatus l (status j) READY) (set_heap <[l := with_status READY j]> s).

(** After the handle is released and the entry deleted. *)
Definition cancelled (k : string) (h : handle) (s : state) : state :=
  set_jobs (delete k) (set_triggers (delete h) s).

(** What holds of every state the system reaches. *)
Record Inv (s : state) : Prop := {
  heap_bound : ∀ l j, heap s !! l = Some j → l < next_loc s;
  jobs_live : ∀ k l, jobs s !! k = Some l →
    ∃ j, heap s !! l = Some j ∧ key j = k;
  handle_ok : ∀ l j h, heap s !! l = Some j → job_handle j = Some h →
    h < next_handle s ∧
    (is_Some (triggers s !! h) → jobs s !! key j = Some l);
  timer_set : ∀ l j, heap s !! l = Some j → type j ≠ cron →
    is_Some (job_handle j);
  trig_env : ∀ h reg, triggers s !! h = Some reg →
    ∃ l j, jobs s !! c_key (reg_handler reg) = Some l ∧
           heap s !! l = Some j ∧ job_handle j = Some h ∧
           c_configs (reg_handler reg) = configs_of j ∧
           (c_origin (reg_handler reg) = OTimeout →
            one_shot (reg_source reg) = true);
  pend_live : ∀ p, p ∈ suspended s →
    ∃ j, heap s !! p_job p = Some j ∧ key j = c_key (p_env p);
  pend_handle : ∀ p j, p ∈ suspended s → heap s !! p_job p = Some j →
    c_origin (p_env p) ≠ OImmediate → is_Some (job_handle j);
  waiting_count : ∀ l j, heap s !! l = Some j → waiting j = true →
    in_flight l (suspended s) = match status j with RUNNING => 1 | READY => 0 end;
  log_legal : ∀ l old new, EStatus l old new ∈ log s →
    ∃ j, heap s !! l = Some j ∧ (waiting j = true → legal old new);
}.

Definition preserves {A} (m : M A) : Prop := ∀ s, Inv s → Inv (m s).2.

(** A handler may start a run for [env] in [s]: whatever job the registry
    holds for its key was created with the handler's configuration and,
    unless the handler is the immediate run, has a handle. *)
Definition linked (env : closure) (s : state) : Prop :=
  ∀ l j, jobs s !! c_key env = Some l → heap s !! l = Some j →
         c_configs env = configs_of j ∧
         (c_origin env ≠ OImmediate → is_Some (job_handle j)).

(** [cancelJob k] has a handle to release: the job registered under [k], if
    there is one, was given a handle. *)
Definition cancellable (k : string) (s : state) : Prop :=
  ∀ l j, jobs s !! k = Some l → heap s !! l = Some j → is_Some (job_handle j).

(** What a schedule operation does once the key is known to be free. *)
Definition install_and_run (src : source) (env : closure) (ty : jtype)
    (cfg : option obj) : M unit :=
  λ s, (if truthy (prop (c_configs env) "immediate")
        then runJobImmediately (c_key env) (c_configs env) (c_cb env)
               (c_tryLock env)
        else ret tt) (installed src env ty cfg s).

(** Handles are handed out in increasing order, so one that is below the
    counter and not live stays that way. *)
Definition keeps_dead (s s' : state) : Prop :=
  (next_handle s ≤ next_handle s')%nat ∧
  ∀ h, h < next_handle s → triggers s !! h = None → triggers s' !! h = None.

Definition grows {A} (m : M A) : Prop := ∀ s, keeps_dead s (m s).2.

(** No two job objects were given the same handle. *)
Definition handles_distinct (s : state) : Prop :=
  ∀ l1 l2 j1 j2 h,
    heap s !! l1 = Some j1 → heap s !! l2 = Some j2 →
    job_handle j1 = Some h → job_handle j2 = Some h → l1 = l2.

(** A job that reads RUNNING has a run that has not resolved yet. *)
Definition running_has_run (s : state) : Prop :=
  ∀ l j, heap s !! l = Some j → status j = RUNNING →
         0 < in_flight l (suspended s).

(** The outcome [r] of a schedule operation that went through in [s]: a new
    job under [k]; the registration of [src] and [env] under a new handle
    when the trigger source hands one out, and a job without handle and no
    registration when it does not; a first run exactly when [immediate] is
    set in the handler's configuration. *)
Definition registers (ty : jtype) (cfg : option obj) (src : source)
    (env : closure) (s : state) (r : result unit * state) : Prop :=
  let now := truthy (prop (c_configs env) "immediate") in
  r.1 = Ret tt ∧
  jobs r.2 = <[c_key env := next_loc s]> (jobs s) ∧
  heap r.2
  = <[next_loc s :=
       with_status (if now then RUNNING else READY)
         (fresh_job (c_key env) ty cfg
            (if handed_out src then Some (next_handle s) else None))]>
      (heap s) ∧
  triggers r.2
  = (if handed_out src
     then <[next_handle s := mkReg src env]> (triggers s)
     else triggers s) ∧
  suspended r.2
  = suspended s
    ++ (if now
        then [mkPending
                (mkClosure OImmediate (c_key env) (c_configs env) (c_cb env)
                   (c_tryLock env))
                (next_loc s)]
        else []).

(** The outcome [r] of a schedule operation is undone by [cancelJob k]. *)
Definition undone_by_cancel (k : string) (s : state)
    (r : result unit * state) : Prop :=
  r.1 = Ret tt ∧
  let s' := (cancelJob k r.2).2 in
  jobs s' = jobs s ∧ triggers s' = triggers s.

(** *** Running the monad by hand *)

Ltac mrun :=
  cbv [bind get ret throw modify nonnull jobs_get load release clearTimer];
  simpl.

Lemma assertJobNotExist_present s k :
  is_Some (jobs s !! k) →
  assertJobNotExist k s
  = (Throw (JobRepeatException ("The job " +:+ k +:+ " is exists.")), s).
Proof.
  intros Hk. unfold assertJobNotExist, bind, get.
  by rewrite bool_decide_eq_true_2.
Qed.

Lemma assertJobNotExist_absent s k :
  jobs s !! k = None → assertJobNotExist k s = (Ret tt, s).
Proof.
  intros Hk. unfold assertJobNotExist, bind, get.
  rewrite bool_decide_eq_false_2; [done|].
  rewrite Hk. by intros [? ?].
Qed.

Lemma startChecked_absent env s :
  jobs s !! c_key env = None → startChecked env s = (Ret tt, s).
Proof. intros Hk. unfold startChecked, bind, jobs_get, get, ret; simpl. by rewrite Hk. Qed.

Lemma startAsserted_absent env s :
  jobs s !! c_key env = None → startAsserted env s = (Throw TypeError, s).
Proof.
  intros Hk. unfold startAsserted, bind, jobs_get, get, ret; simpl. rewrite Hk.
  by destruct (truthy _).
Qed.

Lemma startChecked_busy env s l j :
  jobs s !! c_key env = Some l → heap s !! l = Some j →
  truthy (prop (c_configs env) "waiting") = true → status j ≠ READY →
  startChecked env s = (Ret tt, s).
Proof.
  intros Hk Hl Hw Hst.
  unfold startChecked; mrun. rewrite Hk, Hl, Hw; simpl.
  by rewrite bool_decide_eq_false_2.
Qed.

Lemma startAsserted_busy env s l j :
  jobs s !! c_key env = Some l → heap s !! l = Some j →
  truthy (prop (c_configs env) "waiting") = true → status j ≠ READY →
  startAsserted env s = (Ret tt, s).
Proof.
  intros Hk Hl Hw Hst.
  unfold startAsserted; mrun. rewrite Hk, Hw, Hl; simpl.
  by rewrite bool_decide_eq_false_2.
Qed.

(** ** The invariant *)

Lemma in_flight_app l ps qs :
  in_flight l (ps ++ qs) = in_flight l ps + in_flight l qs.
Proof. unfold in_flight. by rewrite filter_app, length_app. Qed.

Lemma in_flight_cons l p ps :
  in_flight l (p :: ps)
  = (if decide (p_job p = l) then 1 else 0) + in_flight l ps.
Proof. unfold in_flight. rewrite filter_cons. by case_decide. Qed.

Lemma in_flight_none l ps :
  (∀ p, p ∈ ps → p_job p ≠ l) → in_flight l ps = 0.
Proof.
  induction ps as [|p ps IH]; intros Hps; [done|].
  rewrite in_flight_cons, IH.
  - rewrite decide_False; [done|]. apply Hps. by left.
  - intros q Hq. apply Hps. by right.
Qed.

Lemma in_flight_delete l ps i p :
  ps !! i = Some p →
  in_flight l ps
  = (if decide (p_job p = l) then 1 else 0) + in_flight l (delete i ps).
Proof.
  intros Hi. rewrite delete_take_drop.
  rewrite <- (take_drop_middle ps i p Hi) at 1.
  rewrite !in_flight_app, in_flight_cons. lia.
Qed.

Lemma Inv_init : Inv init.
Proof.
  split; simpl; intros *; try (rewrite lookup_empty; done);
    by intros ?%elem_of_nil.
Qed.

Lemma Inv_trig_bound s h reg :
  Inv s → triggers s !! h = Some reg → h < next_handle s.
Proof.
  intros HI Hh.
  destruct (trig_env _ HI _ _ Hh) as (l & j & _ & Hl & Hj & _).
  by destruct (handle_ok _ HI _ _ _ Hl Hj).
Qed.

Lemma Inv_expired s h : Inv s → Inv (set_triggers (delete h) s).
Proof.
  intros HI. split; simpl; try apply HI.
  - intros l j h' Hl Hh'. destruct (handle_ok _ HI _ _ _ Hl Hh') as [? Hact].
    split; [done|].
    intros [reg [_ Hreg]%lookup_delete_Some]. eauto.
  - intros h' reg [_ Hreg]%lookup_delete_Some. by apply HI.
Qed.

Lemma fresh_job_handle k ty cfg h : job_handle (fresh_job k ty cfg h) = h.
Proof. unfold job_handle, fresh_job; simpl. by destruct ty. Qed.

Lemma Inv_installed s src env ty cfg :
  Inv s →
  jobs s !! c_key env = None →
  c_configs env
    = match ty with
      | interval => assign [cfg; cfg]
      | _ => assign [Some defaults; cfg]
      end →
  (c_origin env = OTimeout → one_shot src = true) →
  (ty ≠ cron → handed_out src = true) →
  Inv (installed src env ty cfg s).
Proof.
  intros HI Hfree Hcfg Hshot Hty.
  pose proof (heap_bound _ HI) as Hb.
  assert (Hnew : heap s !! next_loc s = None).
  { destruct (heap s !! next_loc s) eqn:E; [|done]. apply Hb in E. lia. }
  assert (Hlive : ∀ h, h < next_handle s →
    is_Some ((if handed_out src
              then <[next_handle s := mkReg src env]> (triggers s)
              else triggers s) !! h) → is_Some (triggers s !! h)).
  { intros h Hlt. destruct (handed_out src); [|done].
    by rewrite lookup_insert_ne by lia. }
  assert (Hnext : (next_handle s
                   ≤ if handed_out src then S (next_handle s)
                     else next_handle s)%nat)
    by (destruct (handed_out src); lia).
  split; simpl.
  - intros l j [[<- <-]|[_ Hl]]%lookup_insert_Some; [lia|].
    apply Hb in Hl. lia.
  - intros k l [[<- <-]|[Hk Hl]]%lookup_insert_Some.
    + eexists. by rewrite lookup_insert_eq.
    + destruct (jobs_live _ HI _ _ Hl) as (j & Hj & <-).
      exists j. split; [|done]. rewrite lookup_insert_ne; [done|].
      intros E. congruence.
  - intros l j h [[<- <-]|[Hne Hl]]%lookup_insert_Some Hh.
    + rewrite fresh_job_handle in Hh.
      destruct (handed_out src); [|done]. injection Hh as <-.
      split; [lia|]. intros _. simpl. by rewrite lookup_insert_eq.
    + destruct (handle_ok _ HI _ _ _ Hl Hh) as [Hlt Hact].
      split; [lia|]. intros Hs. specialize (Hact (Hlive h Hlt Hs)).
      rewrite lookup_insert_ne; [done|]. intros E. congruence.
  - intros l j [[<- <-]|[Hne Hl]]%lookup_insert_Some Hc.
    + rewrite fresh_job_handle. simpl in Hc. rewrite (Hty Hc). by eexists.
    + by eapply (timer_set _ HI).
  - intros h reg Hreg.
    assert (Hcases : (handed_out src = true ∧ h = next_handle s
                      ∧ reg = mkReg src env)
                     ∨ (h < next_handle s ∧ triggers s !! h = Some reg)).
    { destruct (handed_out src).
      - apply lookup_insert_Some in Hreg as [[<- <-]|[Hne Hreg]]; [by left|].
        right. split; [|done]. by eapply Inv_trig_bound.
      - right. split; [|done]. by eapply Inv_trig_bound. }
    destruct Hcases as [(Hok & -> & ->)|[Hlt Hold]]; simpl.
    + eexists _, _. rewrite !lookup_insert_eq.
      split_and!; try done;
        first [ by rewrite fresh_job_handle, Hok
              | unfold configs_of; simpl; rewrite Hcfg; by destruct ty ].
    + destruct (trig_env _ HI _ _ Hold) as (l & j & Hk & Hl & ?).
      exists l, j. rewrite !lookup_insert_ne; [done| |].
      * intros E. congruence.
      * intros E. congruence.
  - intros p Hp. destruct (pend_live _ HI _ Hp) as (j & Hj & ?).
    exists j. rewrite lookup_insert_ne; [done|]. intros E. congruence.
  - intros p j Hp Hl Himm. destruct (pend_live _ HI _ Hp) as (j' & Hj' & ?).
    rewrite lookup_insert_ne in Hl by (intros E; congruence).
    by eapply (pend_handle _ HI).
  - intros l j [[<- <-]|[Hne Hl]]%lookup_insert_Some Hw; simpl.
    + apply in_flight_none. intros p Hp E.
      destruct (pend_live _ HI _ Hp) as (j & Hj & _). congruence.
    + by apply HI.
  - intros l old new He. destruct (log_legal _ HI _ _ _ He) as (j & Hj & ?).
    exists j. rewrite lookup_insert_ne; [done|]. intros E. congruence.
Qed.

Lemma Inv_started s env l j :
  Inv s →
  jobs s !! c_key env = Some l →
  heap s !! l = Some j →
  c_configs env = configs_of j →
  (c_origin env ≠ OImmediate → is_Some (job_handle j)) →
  truthy (prop (c_configs env) "waiting")
    && negb (bool_decide (status j = READY)) = false →
  Inv (started env l j s).
Proof.
  intros HI Hk Hl Hcfg Hfired Hguard.
  assert (Hkey : key j = c_key env).
  { destruct (jobs_live _ HI _ _ Hk) as (j' & Hj' & ?). congruence. }
  assert (Hready : waiting j = true → status j = READY).
  { unfold waiting. rewrite <- Hcfg. intros Hw. rewrite Hw in Hguard.
    simpl in Hguard. apply negb_false_iff, bool_decide_eq_true in Hguard.
    done. }
  split; simpl.
  - intros l' j' [[<- <-]|[_ Hl']]%lookup_insert_Some; by eapply heap_bound.
  - intros k l' Hk'. destruct (jobs_live _ HI _ _ Hk') as (j' & Hj' & ?).
    destruct (decide (l' = l)) as [->|Hne].
    + exists (with_status RUNNING j). rewrite lookup_insert_eq.
      split; [done|]. simpl. congruence.
    + exists j'. by rewrite lookup_insert_ne.
  - intros l' j' h [[<- <-]|[Hne Hl']]%lookup_insert_Some Hh.
    + exact (handle_ok _ HI _ _ _ Hl Hh).
    + exact (handle_ok _ HI _ _ _ Hl' Hh).
  - intros l' j' [[<- <-]|[Hne Hl']]%lookup_insert_Some Hc.
    + exact (timer_set _ HI _ _ Hl Hc).
    + exact (timer_set _ HI _ _ Hl' Hc).
  - intros h reg Hh.
    destruct (trig_env _ HI _ _ Hh) as (l' & j' & Hk' & Hl' & Hrest).
    destruct (decide (l' = l)) as [->|Hne].
    + exists l, (with_status RUNNING j). rewrite lookup_insert_eq.
      assert (j' = j) as -> by congruence. done.
    + exists l', j'. by rewrite lookup_insert_ne.
  - intros p [Hp|Hp%list_elem_of_singleton]%elem_of_app.
    + destruct (pend_live _ HI _ Hp) as (j' & Hj' & ?).
      destruct (decide (p_job p = l)) as [E|Hne].
      * exists (with_status RUNNING j). rewrite E, lookup_insert_eq.
        split; [done|]. simpl. congruence.
      * exists j'. by rewrite lookup_insert_ne.
    + subst p; simpl. exists (with_status RUNNING j).
      by rewrite lookup_insert_eq.
  - intros p j' [Hp|Hp%list_elem_of_singleton]%elem_of_app Hl' Himm.
    + apply lookup_insert_Some in Hl' as [[E <-]|[Hne Hl']].
      * subst l. exact (pend_handle _ HI p j Hp Hl Himm).
      * exact (pend_handle _ HI p j' Hp Hl' Himm).
    + subst p; simpl in *. rewrite lookup_insert_eq in Hl'.
      injection Hl' as <-. exact (Hfired Himm).
  - intros l' j' [[<- <-]|[Hne Hl']]%lookup_insert_Some Hw.
    + rewrite in_flight_app, (waiting_count _ HI _ _ Hl Hw), (Hready Hw).
      simpl. rewrite in_flight_cons, decide_True by done. done.
    + rewrite in_flight_app, (waiting_count _ HI _ _ Hl' Hw).
      rewrite in_flight_cons, decide_False by done. simpl.
      unfold in_flight; simpl. lia.
  - intros l' old new [[He|He%list_elem_of_singleton]%elem_of_app
                      |He%list_elem_of_singleton]%elem_of_app.
    + destruct (log_legal _ HI _ _ _ He) as (j' & Hj' & Hleg).
      destruct (decide (l' = l)) as [->|Hne].
      * exists (with_status RUNNING j). rewrite lookup_insert_eq.
        split; [done|]. assert (j' = j) as -> by congruence. done.
      * exists j'. by rewrite lookup_insert_ne.
    + injection He as -> -> ->. exists (with_status RUNNING j).
      rewrite lookup_insert_eq. split; [done|].
      intros Hw. left. split; [|done]. by apply Hready.
    + discriminate.
Qed.

Lemma Inv_finished s i p j :
  Inv s →
  suspended s !! i = Some p →
  heap s !! p_job p = Some j →
  Inv (finished (p_job p) j (set_suspended (delete i) s)).
Proof.
  intros HI Hi Hl. set (l := p_job p) in *.
  assert (Hin : p ∈ suspended s) by (by eapply list_elem_of_lookup_2).
  split; simpl.
  - intros l' j' [[<- <-]|[_ Hl']]%lookup_insert_Some; by eapply heap_bound.
  - intros k l' Hk'. destruct (jobs_live _ HI _ _ Hk') as (j' & Hj' & ?).
    destruct (decide (l' = l)) as [->|Hne].
    + exists (with_status READY j). rewrite lookup_insert_eq.
      split; [done|]. simpl. congruence.
    + exists j'. by rewrite lookup_insert_ne.
  - intros l' j' h [[<- <-]|[Hne Hl']]%lookup_insert_Some Hh.
    + exact (handle_ok _ HI _ _ _ Hl Hh).
    + exact (handle_ok _ HI _ _ _ Hl' Hh).
  - intros l' j' [[<- <-]|[Hne Hl']]%lookup_insert_Some Hc.
    + exact (timer_set _ HI _ _ Hl Hc).
    + exact (timer_set _ HI _ _ Hl' Hc).
  - intros h reg Hh.
    destruct (trig_env _ HI _ _ Hh) as (l' & j' & Hk' & Hl' & Hrest).
    destruct (decide (l' = l)) as [->|Hne].
    + exists l, (with_status READY j). rewrite lookup_insert_eq.
      assert (j' = j) as -> by congruence. done.
    + exists l', j'. by rewrite lookup_insert_ne.
  - intros q Hq%list_elem_of_delete_inv.
    destruct (pend_live _ HI _ Hq) as (j' & Hj' & ?).
    destruct (decide (p_job q = l)) as [E|Hne].
    + exists (with_status READY j). rewrite E, lookup_insert_eq.
      split; [done|]. simpl. congruence.
    + exists j'. by rewrite lookup_insert_ne.
  - intros q j' Hq%list_elem_of_delete_inv Hl' Himm.
    apply lookup_insert_Some in Hl' as [[E <-]|[Hne Hl']].
    + rewrite E in Hl. exact (pend_handle _ HI q j Hq Hl Himm).
    + exact (pend_handle _ HI q j' Hq Hl' Himm).
  - intros l' j' [[<- <-]|[Hne Hl']]%lookup_insert_Some Hw.
    + pose proof (waiting_count _ HI _ _ Hl Hw) as Hc.
      rewrite (in_flight_delete _ _ _ _ Hi), decide_True in Hc by done.
      simpl. destruct (status j); lia.
    + pose proof (waiting_count _ HI _ _ Hl' Hw) as Hc.
      rewrite (in_flight_delete _ _ _ _ Hi), decide_False in Hc by done.
      done.
  - intros l' old new [He|He%list_elem_of_singleton]%elem_of_app.
    + destruct (log_legal _ HI _ _ _ He) as (j' & Hj' & Hleg).
      destruct (decide (l' = l)) as [->|Hne].
      * exists (with_status READY j). rewrite lookup_insert_eq.
        split; [done|]. assert (j' = j) as -> by congruence. done.
      * exists j'. by rewrite lookup_insert_ne.
    + injection He as -> -> ->. exists (with_status READY j).
      rewrite lookup_insert_eq. split; [done|].
      intros Hw. right. split; [|done].
      pose proof (waiting_count _ HI _ _ Hl Hw) as Hc.
      rewrite (in_flight_delete _ _ _ _ Hi), decide_True in Hc by done.
      destruct (status j); [lia|done].
Qed.

Lemma Inv_cancelled s k l j h :
  Inv s →
  jobs s !! k = Some l →
  heap s !! l = Some j →
  job_handle j = Some h →
  Inv (cancelled k h s).
Proof.
  intros HI Hk Hl Hh.
  assert (Hkey : key j = k).
  { destruct (jobs_live _ HI _ _ Hk) as (j' & Hj' & ?). congruence. }
  split; simpl; try apply HI.
  - intros k' l' [_ Hk']%lookup_delete_Some. by apply HI.
  - intros l' j' h' Hl' Hh'.
    destruct (handle_ok _ HI _ _ _ Hl' Hh') as [Hlt Hact].
    split; [done|].
    intros [reg [Hne Hreg]%lookup_delete_Some].
    assert (Hj : jobs s !! key j' = Some l') by eauto.
    rewrite lookup_delete_ne; [done|]. intros E.
    assert (l' = l) as -> by congruence.
    assert (j' = j) as -> by congruence. congruence.
  - intros h' reg [Hne Hreg]%lookup_delete_Some.
    destruct (trig_env _ HI _ _ Hreg) as (l' & j' & Hk' & Hl' & Hj' & Hrest).
    exists l', j'. split_and!; try done; [|apply Hrest..].
    rewrite lookup_delete_ne; [done|]. intros E.
    assert (l' = l) as -> by congruence.
    assert (j' = j) as -> by congruence. congruence.
Qed.

(** *** The operations keep the invariant *)

Lemma preserves_bind {A B} (m : M A) (k : A → M B) :
  preserves m → (∀ a, preserves (k a)) → preserves (bind m k).
Proof.
  intros Hm Hk s HI. unfold bind. specialize (Hm s HI).
  destruct (m s) as [[a|e] s']; simpl in *; [by apply Hk|done].
Qed.

Lemma preserves_ret {A} (a : A) : preserves (ret a).
Proof. by intros s HI. Qed.

Lemma preserves_nonnull {A} (o : option A) : preserves (nonnull o).
Proof. intros s HI. by destruct o. Qed.

Lemma start_run env l j s :
  heap s !! l = Some j →
  (write_status l RUNNING ;; await_execute env l) s
  = (Ret tt, started env l j s).
Proof. intros Hl. unfold write_status, await_execute; mrun. by rewrite Hl. Qed.

Lemma finish_run l j s :
  heap s !! l = Some j → write_status l READY s = (Ret tt, finished l j s).
Proof. intros Hl. unfold write_status; mrun. by rewrite Hl. Qed.

Lemma cancelJob_absent s k :
  jobs s !! k = None → cancelJob k s = (Ret tt, s).
Proof. intros Hk. unfold cancelJob; mrun. by rewrite Hk. Qed.

Lemma cancelJob_present s k l j h :
  jobs s !! k = Some l → heap s !! l = Some j → job_handle j = Some h →
  cancelJob k s = (Ret tt, cancelled k h s).
Proof.
  intros Hk Hl Hh. unfold cancelJob; mrun. rewrite Hk, Hl; simpl.
  unfold job_handle in Hh. destruct (type j); by rewrite Hh.
Qed.

Lemma cancelJob_no_instance s k l j :
  jobs s !! k = Some l → heap s !! l = Some j →
  type j = cron → instance j = None →
  cancelJob k s = (Throw TypeError, s).
Proof.
  intros Hk Hl Hty Hi. unfold cancelJob; mrun. rewrite Hk, Hl; simpl.
  by rewrite Hty, Hi.
Qed.

(** [cancelJob] on a registered key, from a state that satisfies the
    invariant: the job's handle is released and the entry deleted, or the
    job has no handle and the call faults before it has changed anything. *)
Lemma cancelJob_reachable s k l :
  Inv s → jobs s !! k = Some l →
  ∃ j, heap s !! l = Some j ∧
       ((∃ h, job_handle j = Some h ∧
              cancelJob k s = (Ret tt, cancelled k h s))
        ∨ (job_handle j = None ∧ cancelJob k s = (Throw TypeError, s))).
Proof.
  intros HI Hk. destruct (jobs_live _ HI _ _ Hk) as (j & Hl & _).
  exists j. split; [done|].
  destruct (job_handle j) as [h|] eqn:Hh.
  - left. exists h. split; [done|]. by eapply cancelJob_present.
  - right. split; [done|].
    destruct (decide (type j = cron)) as [Hty|Hty].
    + eapply cancelJob_no_instance; [done..|].
      unfold job_handle in Hh. by rewrite Hty in Hh.
    + destruct (timer_set _ HI _ _ Hl Hty) as [h Hh']. congruence.
Qed.

Lemma preserves_cancelJob k : preserves (cancelJob k).
Proof.
  intros s HI. destruct (jobs s !! k) as [l|] eqn:Hk.
  - destruct (cancelJob_reachable _ _ _ HI Hk)
      as (j & Hl & [(h & Hh & ->)|[_ ->]]); [|done].
    simpl. by eapply Inv_cancelled.
  - by rewrite cancelJob_absent.
Qed.

Lemma preserves_cancelEach ks : preserves (cancelEach ks).
Proof.
  induction ks as [|k ks IH]; simpl; [apply preserves_ret|].
  apply preserves_bind; [apply preserves_cancelJob|done].
Qed.

Lemma preserves_cancelJobs : preserves cancelJobs.
Proof. intros s HI. unfold cancelJobs; mrun. by apply preserves_cancelEach. Qed.

Lemma Inv_startChecked env s :
  Inv s → linked env s → Inv (startChecked env s).2.
Proof.
  intros HI Hlink. unfold startChecked; mrun.
  destruct (jobs s !! c_key env) as [l|] eqn:Hk; [|done].
  destruct (jobs_live _ HI _ _ Hk) as (j & Hl & _). rewrite Hl; simpl.
  destruct (truthy _ && _) eqn:Hguard; [done|].
  change (Inv ((write_status l RUNNING ;; await_execute env l) s).2).
  rewrite (start_run env l j s Hl).
  destruct (Hlink _ _ Hk Hl) as [Hcfg Hfired]. by apply Inv_started.
Qed.

Lemma startAsserted_present env s l j :
  jobs s !! c_key env = Some l → heap s !! l = Some j →
  startAsserted env s = startChecked env s.
Proof.
  intros Hk Hl. unfold startAsserted, startChecked; mrun.
  rewrite Hk; simpl.
  destruct (truthy _); simpl; rewrite ?Hl; simpl; [|done].
  by destruct (bool_decide _).
Qed.

Lemma Inv_handler env s : Inv s → linked env s → Inv (handler env s).2.
Proof.
  intros HI Hlink.
  assert (Inv (startAsserted env s).2).
  { destruct (jobs s !! c_key env) as [l|] eqn:Hk.
    - destruct (jobs_live _ HI _ _ Hk) as (j & Hl & _).
      rewrite (startAsserted_present _ _ _ _ Hk Hl).
      by apply Inv_startChecked.
    - by rewrite startAsserted_absent. }
  unfold handler. destruct (c_origin env); by try apply Inv_startChecked.
Qed.

Lemma Inv_resume s i p needStop :
  Inv s → suspended s !! i = Some p →
  Inv (resume p needStop (set_suspended (delete i) s)).2.
Proof.
  intros HI Hi.
  assert (Hin : p ∈ suspended s) by (by eapply list_elem_of_lookup_2).
  destruct (pend_live _ HI _ Hin) as (j & Hl & _).
  pose proof (Inv_finished _ _ _ _ HI Hi Hl) as HI'.
  unfold resume, bind.
  rewrite (finish_run (p_job p) j (set_suspended (delete i) s)) by done.
  destruct (c_origin (p_env p)), needStop;
    by (apply preserves_cancelJob || apply preserves_ret).
Qed.

Lemma scheduleJob_addJob src env cfg s :
  handed_out src = schedulable src →
  (inst <- scheduleJob src env ;;
   addJob (c_key env) cron cfg inst None ;;
   if truthy (prop (c_configs env) "immediate")
   then runJobImmediately (c_key env) (c_configs env) (c_cb env) (c_tryLock env)
   else ret tt) s
  = install_and_run src env cron cfg s.
Proof.
  intros Hsrc. unfold scheduleJob, install_and_run, installed. rewrite Hsrc.
  by destruct (schedulable src).
Qed.

Lemma scheduleCronJob_absent s k rule cb cfg lock :
  jobs s !! k = None →
  scheduleCronJob k rule cb cfg lock s
  = install_and_run (SRule (cronJob rule cfg))
      (mkClosure OCron k (assign [Some defaults; cfg]) cb lock) cron cfg s.
Proof.
  intros Hk. unfold scheduleCronJob, bind at 1.
  rewrite (assertJobNotExist_absent _ _ Hk).
  by apply (scheduleJob_addJob (SRule (cronJob rule cfg))
              (mkClosure OCron k (assign [Some defaults; cfg]) cb lock)).
Qed.

Lemma scheduleIntervalJob_absent s k ms cb cfg lock :
  jobs s !! k = None →
  scheduleIntervalJob k ms cb cfg lock s
  = install_and_run (SInterval ms)
      (mkClosure OInterval k (assign [cfg; cfg]) cb lock) interval cfg s.
Proof.
  intros Hk. unfold scheduleIntervalJob, bind at 1.
  by rewrite (assertJobNotExist_absent _ _ Hk).
Qed.

Lemma scheduleTimeoutJob_absent s k ms cb cfg lock :
  jobs s !! k = None →
  scheduleTimeoutJob k ms cb cfg lock s
  = install_and_run (STimeout ms)
      (mkClosure OTimeout k (assign [Some defaults; cfg]) cb lock) timeout cfg s.
Proof.
  intros Hk. unfold scheduleTimeoutJob, bind at 1.
  by rewrite (assertJobNotExist_absent _ _ Hk).
Qed.

Lemma scheduleRecurrenceJob_absent s k r cb cfg lock :
  jobs s !! k = None →
  scheduleRecurrenceJob k r cb cfg lock s
  = install_and_run (RecurrenceRule r)
      (mkClosure ORecurrence k (assign [Some defaults; cfg]) cb lock) cron cfg s.
Proof.
  intros Hk. unfold scheduleRecurrenceJob, bind at 1.
  rewrite (assertJobNotExist_absent _ _ Hk).
  by apply (scheduleJob_addJob (RecurrenceRule r)
              (mkClosure ORecurrence k (assign [Some defaults; cfg]) cb lock)).
Qed.

Lemma Inv_install_and_run s src env ty cfg :
  Inv s →
  jobs s !! c_key env = None →
  c_configs env
    = match ty with
      | interval => assign [cfg; cfg]
      | _ => assign [Some defaults; cfg]
      end →
  (c_origin env = OTimeout → one_shot src = true) →
  (ty ≠ cron → handed_out src = true) →
  Inv (install_and_run src env ty cfg s).2.
Proof.
  intros HI Hfree Hcfg Hshot Hty. unfold install_and_run.
  pose proof (Inv_installed _ src _ _ _ HI Hfree Hcfg Hshot Hty) as HI'.
  destruct (truthy _); [|done].
  unfold runJobImmediately. apply Inv_startChecked; [done|].
  intros l j; simpl. rewrite lookup_insert_eq. intros [= <-].
  rewrite lookup_insert_eq. intros [= <-].
  split; [|done]. unfold configs_of; simpl. rewrite Hcfg. by destruct ty.
Qed.

Lemma schedule_present s k :
  is_Some (jobs s !! k) →
  (∀ rule cb cfg lock, (scheduleCronJob k rule cb cfg lock s).2 = s) ∧
  (∀ ms cb cfg lock, (scheduleIntervalJob k ms cb cfg lock s).2 = s) ∧
  (∀ ms cb cfg lock, (scheduleTimeoutJob k ms cb cfg lock s).2 = s) ∧
  (∀ r cb cfg lock, (scheduleRecurrenceJob k r cb cfg lock s).2 = s).
Proof.
  intros Hk. repeat split; intros;
    unfold scheduleCronJob, scheduleIntervalJob, scheduleTimeoutJob,
      scheduleRecurrenceJob, bind;
    by rewrite (assertJobNotExist_present _ _ Hk).
Qed.

Lemma preserves_scheduleCronJob k rule cb cfg lock :
  preserves (scheduleCronJob k rule cb cfg lock).
Proof.
  intros s HI. destruct (jobs s !! k) eqn:Hk.
  - by rewrite (proj1 (schedule_present s k (mk_is_Some _ _ Hk))).
  - rewrite scheduleCronJob_absent by done. by apply Inv_install_and_run.
Qed.

Lemma preserves_scheduleIntervalJob k ms cb cfg lock :
  preserves (scheduleIntervalJob k ms cb cfg lock).
Proof.
  intros s HI. destruct (jobs s !! k) eqn:Hk.
  - by rewrite (proj1 (proj2 (schedule_present s k (mk_is_Some _ _ Hk)))).
  - rewrite scheduleIntervalJob_absent by done. by apply Inv_install_and_run.
Qed.

Lemma preserves_scheduleTimeoutJob k ms cb cfg lock :
  preserves (scheduleTimeoutJob k ms cb cfg lock).
Proof.
  intros s HI. destruct (jobs s !! k) eqn:Hk.
  - by rewrite (proj1 (proj2 (proj2
      (schedule_present s k (mk_is_Some _ _ Hk))))).
  - rewrite scheduleTimeoutJob_absent by done. by apply Inv_install_and_run.
Qed.

Lemma preserves_scheduleRecurrenceJob k r cb cfg lock :
  preserves (scheduleRecurrenceJob k r cb cfg lock).
Proof.
  intros s HI. destruct (jobs s !! k) eqn:Hk.
  - by rewrite (proj2 (proj2 (proj2
      (schedule_present s k (mk_is_Some _ _ Hk))))).
  - rewrite scheduleRecurrenceJob_absent by done. by apply Inv_install_and_run.
Qed.

Lemma preserves_queueJob job : preserves (queueJob job).
Proof.
  unfold queueJob. destruct (truthy _); [|apply preserves_ret].
  apply preserves_bind; [|intros _; apply preserves_bind; [|intros _]];
    (case_bool_decide; [|apply preserves_ret]).
  - apply preserves_scheduleCronJob.
  - apply preserves_bind; [apply preserves_nonnull|intros c].
    apply preserves_scheduleIntervalJob.
  - apply preserves_bind; [apply preserves_nonnull|intros c].
    apply preserves_scheduleTimeoutJob.
Qed.

Lemma Inv_step a s s' : Inv s → step a s = Some s' → Inv s'.
Proof.
  intros HI Hstep.
  destruct a as [job|k| |k r cb cfg lk|k ms cb cfg lk|k ms cb cfg lk
                |k r cb cfg lk|h|i needStop];
    simpl in Hstep;
    try (injection Hstep as <-;
         by first [ apply preserves_queueJob | apply preserves_cancelJob
                  | apply preserves_cancelJobs | apply preserves_scheduleCronJob
                  | apply preserves_scheduleIntervalJob
                  | apply preserves_scheduleTimeoutJob
                  | apply preserves_scheduleRecurrenceJob ]).
  - destruct (triggers s !! h) as [reg|] eqn:Hh; [|done].
    simpl in Hstep. injection Hstep as <-.
    destruct (trig_env _ HI _ _ Hh) as (l & j & Hk & Hl & Hj & Hcfg & _).
    assert (Hlink : linked (reg_handler reg) s).
    { intros l' j' Hk' Hl'.
      assert (l' = l) as -> by congruence.
      assert (j' = j) as -> by congruence.
      split; [done|]. intros _. rewrite Hj. by eexists. }
    destruct (one_shot _); apply Inv_handler; auto using Inv_expired.
  - destruct (suspended s !! i) as [p|] eqn:Hi; [|done].
    simpl in Hstep. injection Hstep as <-. by apply Inv_resume.
Qed.

Lemma Inv_run acts s s' : Inv s → run acts s = Some s' → Inv s'.
Proof.
  revert s. induction acts as [|a acts IH]; intros s HI Hrun; simpl in Hrun.
  - by injection Hrun as <-.
  - destruct (step a s) as [s1|] eqn:Hstep; [|done].
    eapply IH; [|done]. by eapply Inv_step.
Qed.

Lemma Inv_reachable s : reachable s → Inv s.
Proof. intros [acts Hrun]. eapply Inv_run; [apply Inv_init|done]. Qed.

(** ** A released handle is never live again *)

Lemma keeps_dead_refl s : keeps_dead s s.
Proof. by split. Qed.

Lemma keeps_dead_trans s1 s2 s3 :
  keeps_dead s1 s2 → keeps_dead s2 s3 → keeps_dead s1 s3.
Proof.
  intros [Hle1 H1] [Hle2 H2]. split; [lia|].
  intros h Hlt Hh. apply H2; [lia|]. by apply H1.
Qed.

Lemma keeps_dead_sub s s' :
  next_handle s' = next_handle s →
  (∀ h, triggers s !! h = None → triggers s' !! h = None) →
  keeps_dead s s'.
Proof. intros Hn Hsub. split; [lia|]. intros h _. apply Hsub. Qed.

Lemma grows_bind {A B} (m : M A) (k : A → M B) :
  grows m → (∀ a, grows (k a)) → grows (bind m k).
Proof.
  intros Hm Hk s. unfold bind. specialize (Hm s).
  destruct (m s) as [[a|e] s']; simpl in *; [|done].
  eapply keeps_dead_trans; [done|apply Hk].
Qed.

Lemma grows_ret {A} (a : A) : grows (ret a).
Proof. intros s. apply keeps_dead_refl. Qed.

Lemma grows_throw {A} (e : exn) : grows (@throw A e).
Proof. intros s. apply keeps_dead_refl. Qed.

Lemma grows_get : grows get.
Proof. intros s. apply keeps_dead_refl. Qed.

Lemma grows_modify (f : state → state) :
  (∀ s, keeps_dead s (f s)) → grows (modify f).
Proof. intros Hf s. apply Hf. Qed.

Lemma grows_register src fn : grows (register src fn).
Proof.
  intros s. unfold register; mrun. split; simpl; [lia|].
  intros h Hlt Hh. rewrite lookup_insert_ne by lia. done.
Qed.

Lemma grows_release h : grows (release h).
Proof.
  intros s. apply keeps_dead_sub; simpl; [done|].
  intros h' Hh'. apply lookup_delete_None. by right.
Qed.

Ltac grows_step :=
  first
    [ apply grows_ret | apply grows_throw | apply grows_get
    | apply grows_register | apply grows_release
    | apply grows_modify; intros ?; by apply keeps_dead_sub
    | apply grows_bind; [|intros ?]
    | match goal with
      | |- grows (if ?b then _ else _) => destruct b
      | |- grows (match ?x with _ => _ end) => destruct x
      end ].

Lemma grows_cancelJob k : grows (cancelJob k).
Proof.
  unfold cancelJob, jobs_get, load, nonnull, clearTimer. repeat grows_step.
Qed.

Lemma grows_startChecked env : grows (startChecked env).
Proof.
  unfold startChecked, write_status, await_execute, jobs_get, load, nonnull.
  repeat grows_step.
Qed.

Lemma grows_startAsserted env : grows (startAsserted env).
Proof.
  unfold startAsserted, write_status, await_execute, jobs_get, load, nonnull.
  repeat grows_step.
Qed.

Lemma grows_handler env : grows (handler env).
Proof.
  unfold handler.
  destruct (c_origin env); auto using grows_startChecked, grows_startAsserted.
Qed.

Lemma grows_resume p needStop : grows (resume p needStop).
Proof.
  unfold resume. apply grows_bind.
  - unfold write_status, load, nonnull. repeat grows_step.
  - intros _. destruct (c_origin _), needStop;
      auto using grows_cancelJob, grows_ret.
Qed.

Lemma grows_addJob_tail k ty cfg i t configs cb lock :
  grows (addJob k ty cfg i t ;;
         if truthy (prop configs "immediate")
         then runJobImmediately k configs cb lock
         else ret tt).
Proof.
  apply grows_bind; [unfold addJob; repeat grows_step|intros _].
  destruct (truthy _); [apply grows_startChecked|apply grows_ret].
Qed.

Lemma grows_scheduleJob src env : grows (scheduleJob src env).
Proof.
  unfold scheduleJob. destruct (schedulable src); [|apply grows_ret].
  apply grows_bind; [apply grows_register|intros h; apply grows_ret].
Qed.

Lemma grows_assertJobNotExist k : grows (assertJobNotExist k).
Proof. unfold assertJobNotExist. repeat grows_step. Qed.

Lemma grows_scheduleCronJob k rule cb cfg lock :
  grows (scheduleCronJob k rule cb cfg lock).
Proof.
  apply grows_bind; [apply grows_assertJobNotExist|intros _].
  apply grows_bind; [apply grows_scheduleJob|intros inst].
  apply grows_addJob_tail.
Qed.

Lemma grows_scheduleIntervalJob k ms cb cfg lock :
  grows (scheduleIntervalJob k ms cb cfg lock).
Proof.
  apply grows_bind; [apply grows_assertJobNotExist|intros _].
  apply grows_bind; [apply grows_register|intros t].
  apply grows_addJob_tail.
Qed.

Lemma grows_scheduleTimeoutJob k ms cb cfg lock :
  grows (scheduleTimeoutJob k ms cb cfg lock).
Proof.
  apply grows_bind; [apply grows_assertJobNotExist|intros _].
  apply grows_bind; [apply grows_register|intros t].
  apply grows_addJob_tail.
Qed.

Lemma grows_scheduleRecurrenceJob k r cb cfg lock :
  grows (scheduleRecurrenceJob k r cb cfg lock).
Proof.
  apply grows_bind; [apply grows_assertJobNotExist|intros _].
  apply grows_bind; [apply grows_scheduleJob|intros inst].
  apply grows_addJob_tail.
Qed.

Lemma grows_nonnull {A} (o : option A) : grows (nonnull o).
Proof. unfold nonnull. repeat grows_step. Qed.

Lemma grows_queueJob job : grows (queueJob job).
Proof.
  unfold queueJob. destruct (truthy _); [|apply grows_ret].
  apply grows_bind; [|intros _; apply grows_bind; [|intros _]];
    (case_bool_decide; [|apply grows_ret]).
  - apply grows_scheduleCronJob.
  - apply grows_bind; [apply grows_nonnull|intros c].
    apply grows_scheduleIntervalJob.
  - apply grows_bind; [apply grows_nonnull|intros c].
    apply grows_scheduleTimeoutJob.
Qed.

Lemma grows_cancelJobs : grows cancelJobs.
Proof.
  unfold cancelJobs. apply grows_bind; [apply grows_get|intros s].
  induction (map fst _) as [|k ks IH]; simpl; [apply grows_ret|].
  apply grows_bind; [apply grows_cancelJob|done].
Qed.

Lemma grows_call a : grows (call a).
Proof.
  destruct a; simpl;
    auto using grows_ret, grows_cancelJob, grows_cancelJobs, grows_queueJob,
      grows_scheduleCronJob, grows_scheduleIntervalJob,
      grows_scheduleTimeoutJob, grows_scheduleRecurrenceJob.
Qed.

Lemma keeps_dead_step a s s' : step a s = Some s' → keeps_dead s s'.
Proof.
  intros Hstep.
  destruct a as [job|k| |k r cb cfg lk|k ms cb cfg lk|k ms cb cfg lk
                |k r cb cfg lk|h|i needStop];
    simpl in Hstep;
    try (injection Hstep as <-;
         first [ exact (grows_call (AQueueJob job) s)
               | exact (grows_call (ACancelJob k) s)
               | exact (grows_call ACancelJobs s)
               | exact (grows_call (AScheduleCronJob k r cb cfg lk) s)
               | exact (grows_call (AScheduleIntervalJob k ms cb cfg lk) s)
               | exact (grows_call (AScheduleTimeoutJob k ms cb cfg lk) s)
               | exact (grows_call (AScheduleRecurrenceJob k r cb cfg lk) s) ]).
  - destruct (triggers s !! h) as [reg|] eqn:Hh; [|done].
    simpl in Hstep. injection Hstep as <-.
    eapply keeps_dead_trans; [|apply grows_handler].
    destruct (one_shot _); [apply (grows_release h s)|apply keeps_dead_refl].
  - destruct (suspended s !! i) as [p|] eqn:Hi; [|done].
    simpl in Hstep. injection Hstep as <-.
    eapply keeps_dead_trans; [|apply grows_resume].
    by apply keeps_dead_sub.
Qed.

Lemma keeps_dead_run acts s s' : run acts s = Some s' → keeps_dead s s'.
Proof.
  revert s. induction acts as [|a acts IH]; intros s Hrun; simpl in Hrun.
  - injection Hrun as <-. apply keeps_dead_refl.
  - destruct (step a s) as [s1|] eqn:Hstep; [|done].
    eapply keeps_dead_trans; [by eapply keeps_dead_step|by apply IH].
Qed.

(** A handle that has been handed out and is no longer live cannot fire
    in any later state. *)
Lemma dead_handle_never_fires s h acts s' :
  h < next_handle s → triggers s !! h = None →
  run acts s = Some s' → step (AFire h) s' = None.
Proof.
  intros Hlt Hh Hrun. destruct (keeps_dead_run _ _ _ Hrun) as [_ Hdead].
  simpl. by rewrite (Hdead h Hlt Hh).
Qed.

(** ** What a handler does when the entry is there *)

Lemma startChecked_present env s l j :
  jobs s !! c_key env = Some l → heap s !! l = Some j →
  startChecked env s
  = (Ret tt,
     if truthy (prop (c_configs env) "waiting")
        && negb (bool_decide (status j = READY))
     then s else started env l j s).
Proof.
  intros Hk Hl. unfold startChecked; mrun. rewrite Hk, Hl; simpl.
  destruct (truthy _ && _); [done|].
  change ((write_status l RUNNING ;; await_execute env l) s
          = (Ret tt, started env l j s)).
  by apply start_run.
Qed.

Lemma handler_present env s l j :
  jobs s !! c_key env = Some l → heap s !! l = Some j →
  handler env s = startChecked env s.
Proof.
  intros Hk Hl. unfold handler.
  destruct (c_origin env); by try eapply startAsserted_present.
Qed.

Lemma startChecked_triggers env s :
  triggers (startChecked env s).2 = triggers s.
Proof.
  unfold startChecked, write_status, await_execute; mrun.
  repeat case_match; simplify_eq/=; done.
Qed.

(** ** What a resolved run leaves behind *)

Lemma cancelJob_gone s k :
  Inv s → cancellable k s → jobs (cancelJob k s).2 !! k = None.
Proof.
  intros HI Hc. destruct (jobs s !! k) as [l|] eqn:Hk.
  - destruct (cancelJob_reachable _ _ _ HI Hk)
      as (j & Hl & [(h & _ & ->)|[Hnone _]]).
    + simpl. apply lookup_delete_eq.
    + destruct (Hc _ _ Hk Hl) as [h Hh]. congruence.
  - by rewrite cancelJob_absent.
Qed.

Lemma cancelJob_heap s k : Inv s → heap (cancelJob k s).2 = heap s.
Proof.
  intros HI. destruct (jobs s !! k) as [l|] eqn:Hk.
  - by destruct (cancelJob_reachable _ _ _ HI Hk)
      as (j & _ & [(h & _ & ->)|[_ ->]]).
  - by rewrite cancelJob_absent.
Qed.

(** [cancelJob] returns normally exactly when it has a handle to release. *)
Lemma cancelJob_returns s k :
  Inv s → (cancelJob k s).1 = Ret tt ↔ cancellable k s.
Proof.
  intros HI. destruct (jobs s !! k) as [l|] eqn:Hk.
  - destruct (cancelJob_reachable _ _ _ HI Hk)
      as (j & Hl & [(h & Hh & ->)|[Hnone ->]]); simpl.
    + split; [|done]. intros _ l' j' Hk' Hl'.
      assert (l' = l) as -> by congruence.
      assert (j' = j) as -> by congruence. by eexists.
    + split; [done|]. intros Hc.
      destruct (Hc _ _ Hk Hl) as [h Hh]. congruence.
  - rewrite cancelJob_absent by done. split; [|done].
    intros _ l j Hk'. congruence.
Qed.

(** When the resumed handler ends with [cancelJob(key)]: the key is out of
    the registry exactly when [cancelJob] had a handle to release for what
    was registered under it; the job a firing started the run on is out of
    the registry in any case, and its handle is no longer live. *)
Lemma resume_cancels s i p needStop :
  Inv s → suspended s !! i = Some p →
  c_origin (p_env p) = OTimeout ∨ needStop = true →
  let s' := (resume p needStop (set_suspended (delete i) s)).2 in
  (jobs s' !! c_key (p_env p) = None ↔ cancellable (c_key (p_env p)) s) ∧
  (c_origin (p_env p) ≠ OImmediate → ∀ k, jobs s' !! k ≠ Some (p_job p)) ∧
  ∀ j h, heap s !! p_job p = Some j → job_handle j = Some h →
         triggers s' !! h = None ∧ h < next_handle s'.
Proof.
  intros HI Hi Hcancel s'. set (k := c_key (p_env p)) in *.
  assert (Hin : p ∈ suspended s) by (by eapply list_elem_of_lookup_2).
  destruct (pend_live _ HI _ Hin) as (j & Hl & Hkey). fold k in Hkey.
  set (s1 := finished (p_job p) j (set_suspended (delete i) s)).
  pose proof (Inv_finished _ _ _ _ HI Hi Hl) as HI1. fold s1 in HI1.
  pose proof (Inv_resume _ _ _ needStop HI Hi) as HI'. fold s' in HI'.
  assert (Hs' : s' = (cancelJob k s1).2).
  { unfold s', resume, bind.
    rewrite (finish_run (p_job p) j (set_suspended (delete i) s)) by done.
    destruct Hcancel as [->| ->]; [done|]. by destruct (c_origin _). }
  assert (Hl1 : heap s1 !! p_job p = Some (with_status READY j))
    by apply lookup_insert_eq.
  assert (Hheap : heap s' = heap s1) by (rewrite Hs'; by apply cancelJob_heap).
  assert (Hsame : ∀ l0 j1, heap s1 !! l0 = Some j1 →
            ∃ j0, heap s !! l0 = Some j0 ∧ job_handle j0 = job_handle j1).
  { intros l0 j1. unfold s1; simpl.
    intros [[<- <-]|[_ Hl0]]%lookup_insert_Some; [by exists j|by exists j1]. }
  assert (Hcases :
    (jobs s' = delete k (jobs s) ∧ cancellable k s)
    ∨ (jobs s' = jobs s ∧
       ∃ l0 j0, jobs s !! k = Some l0 ∧ heap s !! l0 = Some j0 ∧
                job_handle j0 = None)).
  { rewrite Hs'. destruct (jobs s !! k) as [l0|] eqn:Hk.
    - destruct (cancelJob_reachable s1 k l0 HI1 Hk)
        as (j1 & Hj1 & [(h1 & Hh1 & ->)|[Hnone ->]]).
      + left. split; [done|]. intros l' j' Hk' Hl'.
        assert (l' = l0) as -> by congruence.
        destruct (Hsame _ _ Hj1) as (j0 & Hj0 & Heq).
        assert (j' = j0) as -> by congruence. rewrite Heq, Hh1. by eexists.
      + right. split; [done|].
        destruct (Hsame _ _ Hj1) as (j0 & Hj0 & Heq).
        exists l0, j0. split_and!; [done..|congruence].
    - left. rewrite (cancelJob_absent s1 k) by done. split.
      + simpl. symmetry. by apply delete_id.
      + intros l' j' Hk'. congruence. }
  assert (Hstuck : ∀ l0 j0 h,
    jobs s !! k = Some l0 → heap s !! l0 = Some j0 → job_handle j0 = None →
    job_handle j = Some h → l0 ≠ p_job p).
  { intros l0 j0 h Hk0 Hl0 Hnone Hh ->. congruence. }
  split_and!.
  - destruct Hcases as [[Hj Hc]|(Hj & l0 & j0 & Hk0 & Hl0 & Hnone)].
    + split; [done|]. intros _. rewrite Hj. apply lookup_delete_eq.
    + rewrite Hj, Hk0. split; [done|]. intros Hc.
      destruct (Hc _ _ Hk0 Hl0) as [h Hh]. congruence.
  - intros Hfired k' Hk'.
    destruct (pend_handle _ HI p j Hin Hl Hfired) as [h Hh].
    assert (Hreg : jobs s !! k' = Some (p_job p) ∧ k' = k →  False).
    { intros [Hk0 ->].
      destruct Hcases as [[Hj _]|(_ & l0 & j0 & Hk0' & Hl0 & Hnone)].
      - rewrite Hj, lookup_delete_eq in Hk'. done.
      - apply (Hstuck l0 j0 h Hk0' Hl0 Hnone Hh). congruence. }
    assert (Hold : jobs s !! k' = Some (p_job p)).
    { destruct Hcases as [[Hj _]|[Hj _]]; rewrite Hj in Hk'; [|done].
      by apply lookup_delete_Some in Hk' as [_ ?]. }
    apply Hreg. split; [done|].
    destruct (jobs_live _ HI _ _ Hold) as (j' & Hj' & <-). congruence.
  - intros j0 h Hj0 Hh.
    assert (j0 = j) as -> by congruence.
    assert (Hl' : heap s' !! p_job p = Some (with_status READY j))
      by (by rewrite Hheap).
    destruct (handle_ok _ HI' _ _ h Hl' Hh) as [Hlt Hact].
    split; [|done].
    destruct (triggers s' !! h) eqn:E; [|done].
    assert (Hk' : jobs s' !! k = Some (p_job p)).
    { rewrite <- Hkey. apply Hact. by eexists. }
    destruct Hcases as [[Hj _]|(Hj & l0 & j1 & Hk0 & Hl0 & Hnone)].
    + rewrite Hj, lookup_delete_eq in Hk'. done.
    + exfalso. apply (Hstuck l0 j1 h Hk0 Hl0 Hnone Hh). congruence.
Qed.

(** ** The claims *)

(** C1: a schedule operation called with a key that is already in the
    registry throws [JobRepeatException] (the spec's DuplicateJobError) at
    once and leaves the whole state, the registry and the entry of the key
    included, as it was. *)
Theorem duplicate_key_rejected (s : state) (k : string) :
  is_Some (jobs s !! k) →
  let e := JobRepeatException ("The job " +:+ k +:+ " is exists.") in
  (∀ rule cb cfg lock, scheduleCronJob k rule cb cfg lock s = (Throw e, s)) ∧
  (∀ ms cb cfg lock, scheduleIntervalJob k ms cb cfg lock s = (Throw e, s)) ∧
  (∀ ms cb cfg lock, scheduleTimeoutJob k ms cb cfg lock s = (Throw e, s)) ∧
  (∀ r cb cfg lock, scheduleRecurrenceJob k r cb cfg lock s = (Throw e, s)).
Proof.
  intros Hk e.
  assert (Hthrow : assertJobNotExist k s = (Throw e, s))
    by (by apply assertJobNotExist_present).
  split_and!; intros.
  - unfold scheduleCronJob, bind. by rewrite Hthrow.
  - unfold scheduleIntervalJob, bind. by rewrite Hthrow.
  - unfold scheduleTimeoutJob, bind. by rewrite Hthrow.
  - unfold scheduleRecurrenceJob, bind. by rewrite Hthrow.
Qed.

(** C3, as amended: in every reachable state, each assignment to the status
    of a job whose resolved configuration has [waiting] set was READY to
    RUNNING or RUNNING to READY. *)
Theorem status_transitions_when_waiting (s : state) (l : loc) (j : IJob)
    (old new : jstatus) :
  reachable s →
  heap s !! l = Some j →
  waiting j = true →
  EStatus l old new ∈ log s →
  legal old new.
Proof.
  intros HI%Inv_reachable Hl Hw He.
  destruct (log_legal _ HI _ _ _ He) as (j' & Hl' & Hleg).
  assert (j' = j) as -> by congruence. by apply Hleg.
Qed.

(** C4, as amended: the timer of a timeout job fires at most once.  From a
    reachable state a firing finds the job registered; it starts the run
    unless [waiting] is set and the job is not READY, in which case it
    returns with the job still registered; either way the timer never fires
    again.  When the run started by the timer resolves, whatever the
    executor answered, the job is out of the registry and its timer is not
    live; the key is free exactly when [cancelJob] could cancel what was
    registered under it.  An immediate run that resolves without the stop
    signal leaves the registry and the live handles as they were. *)
Theorem timeout_job_runs_once (s : state) :
  reachable s →
  (∀ h reg, triggers s !! h = Some reg →
     c_origin (reg_handler reg) = OTimeout →
     ∃ l j,
       jobs s !! c_key (reg_handler reg) = Some l ∧
       heap s !! l = Some j ∧ job_handle j = Some h ∧
       step (AFire h) s
       = Some (if truthy (prop (c_configs (reg_handler reg)) "waiting")
                  && negb (bool_decide (status j = READY))
               then set_triggers (delete h) s
               else started (reg_handler reg) l j
                      (set_triggers (delete h) s)) ∧
       ∀ acts s', run (AFire h :: acts) s = Some s' →
                  step (AFire h) s' = None) ∧
  (∀ i p needStop s', suspended s !! i = Some p →
     c_origin (p_env p) = OTimeout →
     step (AResolve i needStop) s = Some s' →
     (jobs s' !! c_key (p_env p) = None
      ↔ cancellable (c_key (p_env p)) s) ∧
     (∀ k, jobs s' !! k ≠ Some (p_job p)) ∧
     ∃ j h, heap s !! p_job p = Some j ∧ job_handle j = Some h ∧
            triggers s' !! h = None) ∧
  (∀ i p s', suspended s !! i = Some p →
     c_origin (p_env p) = OImmediate →
     step (AResolve i false) s = Some s' →
     jobs s' = jobs s ∧ triggers s' = triggers s).
Proof.
  intros HI%Inv_reachable. split_and!.
  - intros h reg Hh Horigin.
    destruct (trig_env _ HI _ _ Hh) as (l & j & Hk & Hl & Hj & _ & Hshot).
    pose proof (Inv_trig_bound _ _ _ HI Hh) as Hlt.
    exists l, j.
    assert (Hstep : step (AFire h) s
      = Some (if truthy (prop (c_configs (reg_handler reg)) "waiting")
                 && negb (bool_decide (status j = READY))
              then set_triggers (delete h) s
              else started (reg_handler reg) l j (set_triggers (delete h) s))).
    { simpl. rewrite Hh; simpl. rewrite (Hshot Horigin).
      rewrite (handler_present _ (set_triggers (delete h) s) l j) by done.
      by rewrite (startChecked_present _ _ l j). }
    split_and!; [done..|].
    intros acts s' Hrun.
    change (run (AFire h :: acts) s) with (step (AFire h) s ≫= run acts) in Hrun.
    rewrite Hstep in Hrun. simpl in Hrun.
    eapply dead_handle_never_fires; [| |exact Hrun];
      destruct (truthy _ && _); simpl; first [done|apply lookup_delete_eq].
  - intros i p needStop s' Hi Horigin Hstep.
    simpl in Hstep. rewrite Hi in Hstep; simpl in Hstep.
    injection Hstep as <-.
    destruct (resume_cancels s i p needStop HI Hi (or_introl Horigin))
      as (Hgone & Hout & Hhandle).
    assert (Hin : p ∈ suspended s) by (by eapply list_elem_of_lookup_2).
    destruct (pend_live _ HI _ Hin) as (j & Hl & _).
    destruct (pend_handle _ HI p j Hin Hl) as [h Hh]; [by rewrite Horigin|].
    split_and!; [done|apply Hout; by rewrite Horigin|].
    exists j, h. split_and!; [done..|]. by apply (Hhandle j h).
  - intros i p s' Hi Horigin Hstep.
    assert (Hin : p ∈ suspended s) by (by eapply list_elem_of_lookup_2).
    destruct (pend_live _ HI _ Hin) as (j & Hl & _).
    simpl in Hstep. rewrite Hi in Hstep; simpl in Hstep.
    injection Hstep as <-. unfold resume, bind.
    rewrite (finish_run (p_job p) j (set_suspended (delete i) s)) by done.
    by rewrite Horigin.
Qed.

(** C5: for a rule given as a string, the [start] and [end] handed to the
    trigger source are the raw parameter's [startTime] and [endTime], or
    [null] when the parameter is omitted, whatever [defaults] holds; the
    handler still gets the merged configuration.  A rule given as an object
    is handed over as it is.  What is handed over is what the trigger source
    registers when it can schedule it; when it cannot, it registers
    nothing. *)
Theorem cron_bounds_from_raw_config (s : state) (k : string) (cb : val)
    (cfg : option obj) (lock : val) :
  jobs s !! k = None →
  (∀ r : string,
     let spec := SRule {[ "start" := match cfg with
                                     | Some c => prop c "startTime"
                                     | None => VNull
                                     end;
                          "end" := match cfg with
                                   | Some c => prop c "endTime"
                                   | None => VNull
                                   end;
                          "rule" := VStr r ]} in
     let s' := (scheduleCronJob k (VStr r) cb cfg lock s).2 in
     if schedulable spec
     then triggers s' !! next_handle s
          = Some (mkReg spec
                    (mkClosure OCron k (assign [Some defaults; cfg]) cb lock))
     else triggers s' = triggers s) ∧
  (∀ o : obj,
     let s' := (scheduleCronJob k (VObj o) cb cfg lock s).2 in
     if schedulable (SRule o)
     then triggers s' !! next_handle s
          = Some (mkReg (SRule o)
                    (mkClosure OCron k (assign [Some defaults; cfg]) cb lock))
     else triggers s' = triggers s).
Proof.
  intros Hk.
  assert (Htrig : ∀ spec env,
    let s' := (install_and_run (SRule spec) env cron cfg s).2 in
    if schedulable (SRule spec)
    then triggers s' !! next_handle s = Some (mkReg (SRule spec) env)
    else triggers s' = triggers s).
  { intros spec env s'.
    assert (Hs' : triggers s'
                  = triggers (installed (SRule spec) env cron cfg s)).
    { unfold s', install_and_run. destruct (truthy _); [|done].
      unfold runJobImmediately. by rewrite startChecked_triggers. }
    rewrite Hs'; simpl.
    destruct (schedulable (SRule spec)); [apply lookup_insert_eq|done]. }
  split.
  - intros r spec s'. subst spec s'.
    rewrite scheduleCronJob_absent by done. apply Htrig.
  - intros o s'. subst s'.
    rewrite scheduleCronJob_absent by done. apply Htrig.
Qed.

(** C7: when the handler's configuration has [waiting] set and the job of
    the key is not READY, a firing returns at once: no executor run is
    recorded, nothing is suspended, the store (so the status) and the
    registry are as before.  The same holds for the immediate run. *)
Theorem waiting_skips_busy_job (env : closure) (s : state) (l : loc) (j : IJob) :
  jobs s !! c_key env = Some l →
  heap s !! l = Some j →
  truthy (prop (c_configs env) "waiting") = true →
  status j ≠ READY →
  handler env s = (Ret tt, s) ∧
  runJobImmediately (c_key env) (c_configs env) (c_cb env) (c_tryLock env) s
    = (Ret tt, s) ∧
  ∀ h reg, triggers s !! h = Some reg → reg_handler reg = env →
    ∃ s', step (AFire h) s = Some s' ∧ jobs s' = jobs s ∧ heap s' = heap s ∧
          suspended s' = suspended s ∧ log s' = log s.
Proof.
  intros Hk Hl Hw Hst.
  assert (Hh : ∀ s0, jobs s0 = jobs s → heap s0 = heap s →
                     handler env s0 = (Ret tt, s0)).
  { intros s0 Hj Hp. unfold handler.
    destruct (c_origin env);
      (eapply startAsserted_busy || eapply startChecked_busy);
      rewrite ?Hj, ?Hp; eauto. }
  split; [by apply Hh|]. split.
  { unfold runJobImmediately. eapply startChecked_busy; simpl; eauto. }
  intros h reg Hreg <-. unfold step. rewrite Hreg; simpl.
  destruct (one_shot _); rewrite Hh; simpl; eauto 10.
Qed.

(** C8: when a run resolves with the stop signal, the job a firing started
    the run on has a handle, is out of the registry afterwards, its handle
    is released, and that handle cannot fire in any later state, so the
    callback is not invoked through it again.  The key itself is free
    afterwards exactly when [cancelJob] could cancel what was registered
    under it. *)
Theorem stop_signal_cancels (s : state) (i : nat) (p : pending) (s' : state) :
  reachable s →
  suspended s !! i = Some p →
  step (AResolve i true) s = Some s' →
  (jobs s' !! c_key (p_env p) = None ↔ cancellable (c_key (p_env p)) s) ∧
  (c_origin (p_env p) ≠ OImmediate →
   (∃ j, heap s !! p_job p = Some j ∧ is_Some (job_handle j)) ∧
   (jobs s !! c_key (p_env p) = Some (p_job p) →
    jobs s' !! c_key (p_env p) = None) ∧
   ∀ k, jobs s' !! k ≠ Some (p_job p)) ∧
  ∀ j h, heap s !! p_job p = Some j → job_handle j = Some h →
         triggers s' !! h = None ∧
         ∀ acts s'', run acts s' = Some s'' → step (AFire h) s'' = None.
Proof.
  intros HI%Inv_reachable Hi Hstep.
  simpl in Hstep. rewrite Hi in Hstep; simpl in Hstep.
  injection Hstep as <-.
  destruct (resume_cancels s i p true HI Hi (or_intror eq_refl))
    as (Hgone & Hout & Hhandle).
  assert (Hin : p ∈ suspended s) by (by eapply list_elem_of_lookup_2).
  destruct (pend_live _ HI _ Hin) as (j & Hl & _).
  split_and!; [done| |].
  - intros Hfired.
    pose proof (pend_handle _ HI p j Hin Hl Hfired) as Hsome.
    split_and!; [by exists j| |by apply Hout].
    intros Hk. apply Hgone. intros l' j' Hk' Hl'.
    assert (l' = p_job p) as -> by congruence.
    assert (j' = j) as -> by congruence. done.
  - intros j0 h Hj0 Hh.
    destruct (Hhandle j0 h Hj0 Hh) as [Hdead Hlt]. split; [done|].
    intros acts s'' Hrun. by eapply dead_handle_never_fires.
Qed.

(** C10: when the key is not in the registry, the handlers installed by
    [scheduleCronJob] and [scheduleRecurrenceJob] fault on the undefined
    entry, and those of [scheduleIntervalJob] and [scheduleTimeoutJob] (and
    the immediate run) return without doing anything. *)
Theorem handler_on_missing_entry (env : closure) (s : state) :
  jobs s !! c_key env = None →
  match c_origin env with
  | OCron | ORecurrence => handler env s = (Throw TypeError, s)
  | OInterval | OTimeout | OImmediate => handler env s = (Ret tt, s)
  end.
Proof.
  intros Hk. unfold handler.
  destruct (c_origin env);
    by (apply startAsserted_absent || apply startChecked_absent).
Qed.

(** ** Induction over the reachable states *)

(** A predicate that survives the five state changes the operations are made
    of (a fired one-shot timer, a registration, a started run, a finished
    run, a cancellation) holds of every reachable state. *)
Section StepInduction.

Variable P : state → Prop.

Hypothesis P_expired : ∀ s h, Inv s → P s → P (set_triggers (delete h) s).

Hypothesis P_installed : ∀ s src env ty cfg,
  Inv s → P s →
  jobs s !! c_key env = None →
  c_configs env
    = match ty with
      | interval => assign [cfg; cfg]
      | _ => assign [Some defaults; cfg]
      end →
  (c_origin env = OTimeout → one_shot src = true) →
  (ty ≠ cron → handed_out src = true) →
  P (installed src env ty cfg s).

Hypothesis P_started : ∀ s env l j,
  Inv s → P s →
  jobs s !! c_key env = Some l →
  heap s !! l = Some j →
  c_configs env = configs_of j →
  (c_origin env ≠ OImmediate → is_Some (job_handle j)) →
  truthy (prop (c_configs env) "waiting")
    && negb (bool_decide (status j = READY)) = false →
  P (started env l j s).

Hypothesis P_finished : ∀ s i p j,
  Inv s → P s →
  suspended s !! i = Some p →
  heap s !! p_job p = Some j →
  P (finished (p_job p) j (set_suspended (delete i) s)).

Hypothesis P_cancelled : ∀ s k l j h,
  Inv s → P s →
  jobs s !! k = Some l →
  heap s !! l = Some j →
  job_handle j = Some h →
  P (cancelled k h s).

Definition keeps {A} (m : M A) : Prop := ∀ s, Inv s → P s → P (m s).2.

Lemma keeps_bind {A B} (m : M A) (k : A → M B) :
  preserves m → keeps m → (∀ a, keeps (k a)) → keeps (bind m k).
Proof.
  intros Hpres Hm Hk s HI HP. unfold bind.
  specialize (Hpres s HI). specialize (Hm s HI HP).
  destruct (m s) as [[a|e] s']; simpl in *; [by apply Hk|done].
Qed.

Lemma keeps_ret {A} (a : A) : keeps (ret a).
Proof. by intros s HI HP. Qed.

Lemma keeps_nonnull {A} (o : option A) : keeps (nonnull o).
Proof. intros s HI HP. by destruct o. Qed.

Lemma keeps_cancelJob k : keeps (cancelJob k).
Proof.
  intros s HI HP. destruct (jobs s !! k) as [l|] eqn:Hk.
  - destruct (cancelJob_reachable _ _ _ HI Hk)
      as (j & Hl & [(h & Hh & ->)|[_ ->]]); [|done].
    simpl. by eapply P_cancelled.
  - by rewrite cancelJob_absent.
Qed.

Lemma keeps_cancelEach ks : keeps (cancelEach ks).
Proof.
  induction ks as [|k ks IH]; simpl; [apply keeps_ret|].
  apply keeps_bind; [apply preserves_cancelJob|apply keeps_cancelJob|done].
Qed.

Lemma keeps_cancelJobs : keeps cancelJobs.
Proof. intros s HI HP. unfold cancelJobs; mrun. by apply keeps_cancelEach. Qed.

Lemma P_startChecked env s :
  Inv s → P s → linked env s → P (startChecked env s).2.
Proof.
  intros HI HP Hlink. unfold startChecked; mrun.
  destruct (jobs s !! c_key env) as [l|] eqn:Hk; [|done].
  destruct (jobs_live _ HI _ _ Hk) as (j & Hl & _). rewrite Hl; simpl.
  destruct (truthy _ && _) eqn:Hguard; [done|].
  change (P ((write_status l RUNNING ;; await_execute env l) s).2).
  rewrite (start_run env l j s Hl).
  destruct (Hlink _ _ Hk Hl) as [Hcfg Hfired]. by apply P_started.
Qed.

Lemma P_handler env s : Inv s → P s → linked env s → P (handler env s).2.
Proof.
  intros HI HP Hlink.
  assert (P (startAsserted env s).2).
  { destruct (jobs s !! c_key env) as [l|] eqn:Hk.
    - destruct (jobs_live _ HI _ _ Hk) as (j & Hl & _).
      rewrite (startAsserted_present _ _ _ _ Hk Hl).
      by apply P_startChecked.
    - by rewrite startAsserted_absent. }
  unfold handler. destruct (c_origin env); by try apply P_startChecked.
Qed.

Lemma P_resume s i p needStop :
  Inv s → P s → suspended s !! i = Some p →
  P (resume p needStop (set_suspended (delete i) s)).2.
Proof.
  intros HI HP Hi.
  assert (Hin : p ∈ suspended s) by (by eapply list_elem_of_lookup_2).
  destruct (pend_live _ HI _ Hin) as (j & Hl & _).
  pose proof (Inv_finished _ _ _ _ HI Hi Hl) as HI'.
  pose proof (P_finished _ _ _ _ HI HP Hi Hl) as HP'.
  unfold resume, bind.
  rewrite (finish_run (p_job p) j (set_suspended (delete i) s)) by done.
  destruct (c_origin (p_env p)), needStop;
    by (apply keeps_cancelJob || apply keeps_ret).
Qed.

Lemma P_install_and_run s src env ty cfg :
  Inv s → P s →
  jobs s !! c_key env = None →
  c_configs env
    = match ty with
      | interval => assign [cfg; cfg]
      | _ => assign [Some defaults; cfg]
      end →
  (c_origin env = OTimeout → one_shot src = true) →
  (ty ≠ cron → handed_out src = true) →
  P (install_and_run src env ty cfg s).2.
Proof.
  intros HI HP Hfree Hcfg Hshot Hty. unfold install_and_run.
  pose proof (Inv_installed _ src _ _ _ HI Hfree Hcfg Hshot Hty) as HI'.
  pose proof (P_installed _ src _ _ _ HI HP Hfree Hcfg Hshot Hty) as HP'.
  destruct (truthy _); [|done].
  unfold runJobImmediately. apply P_startChecked; [done..|].
  intros l j; simpl. rewrite lookup_insert_eq. intros [= <-].
  rewrite lookup_insert_eq. intros [= <-].
  split; [|done]. unfold configs_of; simpl. rewrite Hcfg. by destruct ty.
Qed.

Lemma keeps_scheduleCronJob k rule cb cfg lock :
  keeps (scheduleCronJob k rule cb cfg lock).
Proof.
  intros s HI HP. destruct (jobs s !! k) eqn:Hk.
  - by rewrite (proj1 (schedule_present s k (mk_is_Some _ _ Hk))).
  - rewrite scheduleCronJob_absent by done. by apply P_install_and_run.
Qed.

Lemma keeps_scheduleIntervalJob k ms cb cfg lock :
  keeps (scheduleIntervalJob k ms cb cfg lock).
Proof.
  intros s HI HP. destruct (jobs s !! k) eqn:Hk.
  - by rewrite (proj1 (proj2 (schedule_present s k (mk_is_Some _ _ Hk)))).
  - rewrite scheduleIntervalJob_absent by done. by apply P_install_and_run.
Qed.

Lemma keeps_scheduleTimeoutJob k ms cb cfg lock :
  keeps (scheduleTimeoutJob k ms cb cfg lock).
Proof.
  intros s HI HP. destruct (jobs s !! k) eqn:Hk.
  - by rewrite (proj1 (proj2 (proj2
      (schedule_present s k (mk_is_Some _ _ Hk))))).
  - rewrite scheduleTimeoutJob_absent by done. by apply P_install_and_run.
Qed.

Lemma keeps_scheduleRecurrenceJob k r cb cfg lock :
  keeps (scheduleRecurrenceJob k r cb cfg lock).
Proof.
  intros s HI HP. destruct (jobs s !! k) eqn:Hk.
  - by rewrite (proj2 (proj2 (proj2
      (schedule_present s k (mk_is_Some _ _ Hk))))).
  - rewrite scheduleRecurrenceJob_absent by done. by apply P_install_and_run.
Qed.

Lemma keeps_queueJob job : keeps (queueJob job).
Proof.
  unfold queueJob. destruct (truthy _); [|apply keeps_ret].
  apply keeps_bind;
    [| |intros _; apply keeps_bind; [| |intros _]];
    try (case_bool_decide; [|apply preserves_ret || apply keeps_ret]).
  - apply preserves_scheduleCronJob.
  - apply keeps_scheduleCronJob.
  - apply preserves_bind; [apply preserves_nonnull|intros c].
    apply preserves_scheduleIntervalJob.
  - apply keeps_bind; [apply preserves_nonnull|apply keeps_nonnull|intros c].
    apply keeps_scheduleIntervalJob.
  - apply keeps_bind; [apply preserves_nonnull|apply keeps_nonnull|intros c].
    apply keeps_scheduleTimeoutJob.
Qed.

Lemma P_step a s s' : Inv s → P s → step a s = Some s' → P s'.
Proof.
  intros HI HP Hstep.
  destruct a as [job|k| |k r cb cfg lk|k ms cb cfg lk|k ms cb cfg lk
                |k r cb cfg lk|h|i needStop];
    simpl in Hstep;
    try (injection Hstep as <-;
         by first [ apply keeps_queueJob | apply keeps_cancelJob
                  | apply keeps_cancelJobs | apply keeps_scheduleCronJob
                  | apply keeps_scheduleIntervalJob
                  | apply keeps_scheduleTimeoutJob
                  | apply keeps_scheduleRecurrenceJob ]).
  - destruct (triggers s !! h) as [reg|] eqn:Hh; [|done].
    simpl in Hstep. injection Hstep as <-.
    destruct (trig_env _ HI _ _ Hh) as (l & j & Hk & Hl & Hj & Hcfg & _).
    assert (Hlink : linked (reg_handler reg) s).
    { intros l' j' Hk' Hl'.
      assert (l' = l) as -> by congruence.
      assert (j' = j) as -> by congruence.
      split; [done|]. intros _. rewrite Hj. by eexists. }
    destruct (one_shot _); apply P_handler; auto using Inv_expired.
  - destruct (suspended s !! i) as [p|] eqn:Hi; [|done].
    simpl in Hstep. injection Hstep as <-. by apply P_resume.
Qed.

Lemma P_run acts s s' : Inv s → P s → run acts s = Some s' → P s'.
Proof.
  revert s. induction acts as [|a acts IH]; intros s HI HP Hrun; simpl in Hrun.
  - by injection Hrun as <-.
  - destruct (step a s) as [s1|] eqn:Hstep; [|done].
    eapply IH; [by eapply Inv_step|by eapply P_step|done].
Qed.

Lemma reachable_ind_states s : P init → reachable s → P s.
Proof.
  intros HP [acts Hrun]. eapply P_run; [apply Inv_init|done|done].
Qed.

End StepInduction.

(** ** Further invariants *)

Lemma handles_distinct_reachable s : reachable s → handles_distinct s.
Proof.
  apply reachable_ind_states.
  - intros s0 h HI HP. exact HP.
  - intros s0 src env ty cfg HI HP Hfree _ _ _ l1 l2 j1 j2 h; simpl.
    intros [[<- <-]|[Hne1 H1]]%lookup_insert_Some
           [[<- <-]|[Hne2 H2]]%lookup_insert_Some Hh1 Hh2; [done| | |by eauto].
    + rewrite fresh_job_handle in Hh1.
      destruct (handle_ok _ HI _ _ _ H2 Hh2) as [Hlt _].
      destruct (handed_out src); [|done]. injection Hh1 as <-. lia.
    + rewrite fresh_job_handle in Hh2.
      destruct (handle_ok _ HI _ _ _ H1 Hh1) as [Hlt _].
      destruct (handed_out src); [|done]. injection Hh2 as <-. lia.
  - intros s0 env l j HI HP Hk Hl _ _ _ l1 l2 j1 j2 h; simpl.
    intros [[<- <-]|[Hne1 H1]]%lookup_insert_Some
           [[<- <-]|[Hne2 H2]]%lookup_insert_Some Hh1 Hh2;
      try done; eapply HP; eauto.
  - intros s0 i p j HI HP Hi Hl l1 l2 j1 j2 h; simpl.
    intros [[<- <-]|[Hne1 H1]]%lookup_insert_Some
           [[<- <-]|[Hne2 H2]]%lookup_insert_Some Hh1 Hh2;
      try done; eapply HP; eauto.
  - intros s0 k l j h HI HP _ _ _. exact HP.
  - intros l1 l2 j1 j2 h; simpl. by rewrite lookup_empty.
Qed.

Lemma running_has_run_reachable s : reachable s → running_has_run s.
Proof.
  apply reachable_ind_states.
  - intros s0 h HI HP. exact HP.
  - intros s0 src env ty cfg HI HP Hfree _ _ _ l j; simpl.
    intros [[<- <-]|[Hne Hl]]%lookup_insert_Some; [done|]. by apply HP.
  - intros s0 env l j HI HP Hk Hl _ _ _ l' j'; simpl.
    intros [[<- <-]|[Hne Hl']]%lookup_insert_Some Hst.
    + rewrite in_flight_app, in_flight_cons, decide_True by done. lia.
    + rewrite in_flight_app. pose proof (HP _ _ Hl' Hst). lia.
  - intros s0 i p j HI HP Hi Hl l' j'; simpl.
    intros [[<- <-]|[Hne Hl']]%lookup_insert_Some Hst; [done|].
    pose proof (HP _ _ Hl' Hst) as Hpos.
    rewrite (in_flight_delete _ _ _ _ Hi), decide_False in Hpos by done.
    done.
  - intros s0 k l j h HI HP _ _ _. exact HP.
  - intros l j; simpl. by rewrite lookup_empty.
Qed.

(** ** Further properties of the operations *)

Lemma install_and_run_spec src env ty cfg s :
  install_and_run src env ty cfg s
  = (Ret tt,
     if truthy (prop (c_configs env) "immediate")
     then started
            (mkClosure OImmediate (c_key env) (c_configs env) (c_cb env)
               (c_tryLock env))
            (next_loc s)
            (fresh_job (c_key env) ty cfg
               (if handed_out src then Some (next_handle s) else None))
            (installed src env ty cfg s)
     else installed src env ty cfg s).
Proof.
  unfold install_and_run. destruct (truthy _); [|done].
  unfold runJobImmediately.
  rewrite (startChecked_present _ _ (next_loc s)
             (fresh_job (c_key env) ty cfg
                (if handed_out src then Some (next_handle s) else None)));
    simpl; rewrite ?lookup_insert_eq; [|done..].
  by rewrite andb_false_r.
Qed.

Lemma install_and_run_registers src env ty cfg s :
  registers ty cfg src env s (install_and_run src env ty cfg s).
Proof.
  rewrite install_and_run_spec. unfold registers; simpl.
  destruct (truthy _); simpl.
  - split_and!; try done. by rewrite insert_insert_eq.
  - split_and!; try done. by rewrite app_nil_r.
Qed.

(** X1: with the key free, each schedule operation returns normally and
    stores a new job object under the key, with the raw [config] parameter,
    the operation's type and, as its handle, what the trigger source
    answered: a new handle, under which the operation's source and handler
    are then registered, or, from [schedule.scheduleJob] for a rule it cannot
    schedule, nothing, and then nothing is registered.  The other entries
    are left alone.  With [immediate] set in the handler's configuration the
    job is RUNNING and one run is suspended when the call returns, whatever
    [waiting] says; otherwise the job is READY and nothing is started. *)
Theorem schedule_registers (s : state) (k : string) (cb : val)
    (cfg : option obj) (lock : val) :
  jobs s !! k = None →
  (∀ rule,
     registers cron cfg (SRule (cronJob rule cfg))
       (mkClosure OCron k (assign [Some defaults; cfg]) cb lock)
       s (scheduleCronJob k rule cb cfg lock s)) ∧
  (∀ ms,
     registers interval cfg (SInterval ms)
       (mkClosure OInterval k (assign [cfg; cfg]) cb lock)
       s (scheduleIntervalJob k ms cb cfg lock s)) ∧
  (∀ ms,
     registers timeout cfg (STimeout ms)
       (mkClosure OTimeout k (assign [Some defaults; cfg]) cb lock)
       s (scheduleTimeoutJob k ms cb cfg lock s)) ∧
  (∀ r,
     registers cron cfg (RecurrenceRule r)
       (mkClosure ORecurrence k (assign [Some defaults; cfg]) cb lock)
       s (scheduleRecurrenceJob k r cb cfg lock s)).
Proof.
  intros Hk. split_and!; intros.
  - rewrite scheduleCronJob_absent by done.
    apply (install_and_run_registers _ (mkClosure OCron k _ cb lock)).
  - rewrite scheduleIntervalJob_absent by done.
    apply (install_and_run_registers _ (mkClosure OInterval k _ cb lock)).
  - rewrite scheduleTimeoutJob_absent by done.
    apply (install_and_run_registers _ (mkClosure OTimeout k _ cb lock)).
  - rewrite scheduleRecurrenceJob_absent by done.
    apply (install_and_run_registers _ (mkClosure ORecurrence k _ cb lock)).
Qed.

Lemma install_and_run_undone src env ty cfg s :
  Inv s → jobs s !! c_key env = None → handed_out src = true →
  undone_by_cancel (c_key env) s (install_and_run src env ty cfg s).
Proof.
  intros HI Hfree Hout.
  assert (Hdead : triggers s !! next_handle s = None).
  { destruct (triggers s !! next_handle s) eqn:E; [|done].
    apply (Inv_trig_bound _ _ _ HI) in E. lia. }
  destruct (install_and_run_registers src env ty cfg s)
    as (Hret & Hjobs & Hheap & Htrig & _).
  rewrite Hout in Hheap, Htrig.
  unfold undone_by_cancel. split; [done|].
  rewrite (cancelJob_present _ (c_key env) (next_loc s)
             (with_status
                (if truthy (prop (c_configs env) "immediate")
                 then RUNNING else READY)
                (fresh_job (c_key env) ty cfg (Some (next_handle s))))
             (next_handle s)).
  - simpl. rewrite Hjobs, Htrig.
    by rewrite !delete_insert_id.
  - by rewrite Hjobs, lookup_insert_eq.
  - by rewrite Hheap, lookup_insert_eq.
  - unfold job_handle, fresh_job; simpl. by destruct ty.
Qed.

Lemma install_and_run_stuck src env cfg s :
  handed_out src = false →
  cancelJob (c_key env) (install_and_run src env cron cfg s).2
  = (Throw TypeError, (install_and_run src env cron cfg s).2).
Proof.
  intros Hout.
  destruct (install_and_run_registers src env cron cfg s)
    as (_ & Hjobs & Hheap & _).
  rewrite Hout in Hheap.
  eapply (cancelJob_no_instance _ _ (next_loc s)).
  - by rewrite Hjobs, lookup_insert_eq.
  - by rewrite Hheap, lookup_insert_eq.
  - done.
  - done.
Qed.

(** X2: registering a job and cancelling it is a round trip on the registry
    and on the trigger source: from a reachable state with the key free,
    [scheduleIntervalJob] or [scheduleTimeoutJob] followed by [cancelJob] of
    the key gives back the registry and the set of live handles there were
    before, whether or not an immediate run was started; so do
    [scheduleCronJob] and [scheduleRecurrenceJob] when the trigger source can
    schedule the rule.  When it cannot, [cancelJob] of the key faults and the
    key stays registered. *)
Theorem schedule_then_cancel (s : state) (k : string) (cb : val)
    (cfg : option obj) (lock : val) :
  reachable s →
  jobs s !! k = None →
  (∀ rule,
     let r := scheduleCronJob k rule cb cfg lock s in
     if schedulable (SRule (cronJob rule cfg))
     then undone_by_cancel k s r
     else cancelJob k r.2 = (Throw TypeError, r.2)) ∧
  (∀ ms, undone_by_cancel k s (scheduleIntervalJob k ms cb cfg lock s)) ∧
  (∀ ms, undone_by_cancel k s (scheduleTimeoutJob k ms cb cfg lock s)) ∧
  (∀ rule,
     let r := scheduleRecurrenceJob k rule cb cfg lock s in
     if schedulable (RecurrenceRule rule)
     then undone_by_cancel k s r
     else cancelJob k r.2 = (Throw TypeError, r.2)).
Proof.
  intros HI%Inv_reachable Hk. split_and!.
  - intros rule r. subst r. rewrite scheduleCronJob_absent by done.
    destruct (schedulable (SRule (cronJob rule cfg))) eqn:E.
    + by apply (install_and_run_undone _ (mkClosure OCron k _ cb lock)).
    + by apply (install_and_run_stuck _ (mkClosure OCron k _ cb lock)).
  - intros ms. rewrite scheduleIntervalJob_absent by done.
    by apply (install_and_run_undone _ (mkClosure OInterval k _ cb lock)).
  - intros ms. rewrite scheduleTimeoutJob_absent by done.
    by apply (install_and_run_undone _ (mkClosure OTimeout k _ cb lock)).
  - intros rule r. subst r. rewrite scheduleRecurrenceJob_absent by done.
    destruct (schedulable (RecurrenceRule rule)) eqn:E.
    + by apply (install_and_run_undone _ (mkClosure ORecurrence k _ cb lock)).
    + by apply (install_and_run_stuck _ (mkClosure ORecurrence k _ cb lock)).
Qed.

(** X3: no timer or cron registration is left behind: in every reachable
    state a live handle belongs to the job registered under its handler's
    key, that job carries the key, and the handler was given the
    configuration the job's operation computed. *)
Theorem live_trigger_owned (s : state) (h : handle) (reg : registration) :
  reachable s →
  triggers s !! h = Some reg →
  ∃ l j, jobs s !! c_key (reg_handler reg) = Some l ∧
         heap s !! l = Some j ∧
         key j = c_key (reg_handler reg) ∧
         job_handle j = Some h ∧
         c_configs (reg_handler reg) = configs_of j.
Proof.
  intros HI%Inv_reachable Hh.
  destruct (trig_env _ HI _ _ Hh) as (l & j & Hk & Hl & Hj & Hcfg & _).
  destruct (jobs_live _ HI _ _ Hk) as (j' & Hl' & Hkey).
  exists l, j. split_and!; try done. congruence.
Qed.

Lemma registered_jobs_apart_aux s k1 k2 l1 l2 j1 j2 :
  reachable s →
  k1 ≠ k2 →
  jobs s !! k1 = Some l1 → heap s !! l1 = Some j1 →
  jobs s !! k2 = Some l2 → heap s !! l2 = Some j2 →
  l1 ≠ l2 ∧ ∀ h, job_handle j1 = Some h → job_handle j2 ≠ Some h.
Proof.
  intros Hr Hne Hk1 Hl1 Hk2 Hl2.
  pose proof (Inv_reachable _ Hr) as HI.
  assert (Hl : l1 ≠ l2).
  { intros ->.
    destruct (jobs_live _ HI _ _ Hk1) as (j & Hj & Hkey1).
    destruct (jobs_live _ HI _ _ Hk2) as (j' & Hj' & Hkey2). congruence. }
  split; [done|]. intros h Hh1 Hh2. apply Hl.
  by eapply (handles_distinct_reachable _ Hr l1 l2 j1 j2 h).
Qed.

(** X4: two keys of the registry never share a job object or a handle, and
    each registered interval or timeout job has a handle (a cron job has one
    unless the trigger source could not schedule its rule). *)
Theorem registered_jobs_apart (s : state) (k1 k2 : string) (l1 l2 : loc)
    (j1 j2 : IJob) :
  reachable s →
  k1 ≠ k2 →
  jobs s !! k1 = Some l1 → heap s !! l1 = Some j1 →
  jobs s !! k2 = Some l2 → heap s !! l2 = Some j2 →
  l1 ≠ l2 ∧
  (∀ h, job_handle j1 = Some h → job_handle j2 ≠ Some h) ∧
  (type j1 ≠ cron → is_Some (job_handle j1)).
Proof.
  intros Hr Hne Hk1 Hl1 Hk2 Hl2.
  pose proof (Inv_reachable _ Hr) as HI.
  assert (Hl : l1 ≠ l2).
  { intros ->.
    destruct (jobs_live _ HI _ _ Hk1) as (j & Hj & Hkey1).
    destruct (jobs_live _ HI _ _ Hk2) as (j' & Hj' & Hkey2). congruence. }
  split_and!; [done| |by apply (timer_set _ HI l1)].
  intros h Hh1 Hh2. apply Hl.
  by eapply (handles_distinct_reachable _ Hr l1 l2 j1 j2 h).
Qed.

(** X5: a job whose status reads RUNNING has at least one run that has not
    resolved yet; the status is never left RUNNING by a run that is over. *)
Theorem running_job_has_run_in_flight (s : state) (l : loc) (j : IJob) :
  reachable s →
  heap s !! l = Some j →
  status j = RUNNING →
  0 < in_flight l (suspended s).
Proof. intros Hr. by apply running_has_run_reachable. Qed.

(** X6: with [waiting] set, a job never has two runs in flight: the number of
    unresolved runs is one when the job is RUNNING and zero when it is
    READY. *)
Theorem waiting_job_single_run (s : state) (l : loc) (j : IJob) :
  reachable s →
  heap s !! l = Some j →
  waiting j = true →
  in_flight l (suspended s) = match status j with RUNNING => 1 | READY => 0 end.
Proof. intros HI%Inv_reachable. by apply waiting_count. Qed.

(** X7: from a reachable state a firing never faults: the entry of the
    handler's key is there, and the handler either returns at once (when
    [waiting] is set and the job is not READY) or sets the job RUNNING, calls
    the executor with its own key, callback, lock and configuration, and
    suspends. *)
Theorem firing_from_reachable_state (s : state) (h : handle)
    (reg : registration) :
  reachable s →
  triggers s !! h = Some reg →
  let env := reg_handler reg in
  let s1 := if one_shot (reg_source reg) then set_triggers (delete h) s else s in
  ∃ l j, jobs s !! c_key env = Some l ∧ heap s !! l = Some j ∧
         handler env s1
         = (Ret tt,
            if truthy (prop (c_configs env) "waiting")
               && negb (bool_decide (status j = READY))
            then s1 else started env l j s1) ∧
         step (AFire h) s = Some (handler env s1).2.
Proof.
  intros HI%Inv_reachable Hh env s1.
  destruct (trig_env _ HI _ _ Hh) as (l & j & Hk & Hl & _).
  exists l, j. split_and!; [done..| |].
  - assert (Hk1 : jobs s1 !! c_key env = Some l)
      by (unfold s1; by destruct (one_shot _)).
    assert (Hl1 : heap s1 !! l = Some j)
      by (unfold s1; by destruct (one_shot _)).
    rewrite (handler_present _ _ _ _ Hk1 Hl1).
    by apply startChecked_present.
  - simpl. by rewrite Hh.
Qed.

Lemma cancelJob_cases s k :
  Inv s → cancellable k s →
  ∃ s', cancelJob k s = (Ret tt, s') ∧ Inv s' ∧
        heap s' = heap s ∧ suspended s' = suspended s ∧ log s' = log s ∧
        ∀ k', jobs s' !! k' = if decide (k' = k) then None else jobs s !! k'.
Proof.
  intros HI Hc. destruct (jobs s !! k) as [l|] eqn:Hk.
  - destruct (cancelJob_reachable _ _ _ HI Hk)
      as (j & Hl & [(h & Hh & Heq)|[Hnone _]]).
    + exists (cancelled k h s). split_and!; try done.
      * by eapply Inv_cancelled.
      * intros k'; simpl. case_decide as E.
        -- subst. apply lookup_delete_eq.
        -- by apply lookup_delete_ne.
    + destruct (Hc _ _ Hk Hl) as [h Hh]. congruence.
  - exists s. rewrite cancelJob_absent by done. split_and!; try done.
    intros k'. case_decide; congruence.
Qed.

Lemma cancelEach_spec ks s :
  Inv s → (∀ k, cancellable k s) →
  ∃ s', cancelEach ks s = (Ret tt, s') ∧ Inv s' ∧
        heap s' = heap s ∧ suspended s' = suspended s ∧ log s' = log s ∧
        ∀ k, jobs s' !! k = if decide (k ∈ ks) then None else jobs s !! k.
Proof.
  revert s. induction ks as [|k ks IH]; intros s HI Hall; simpl.
  - exists s. by split_and!.
  - destruct (cancelJob_cases s k HI (Hall k))
      as (s1 & Hc & HI1 & Hh1 & Hs1 & Hg1 & Hj1).
    assert (Hall1 : ∀ k', cancellable k' s1).
    { intros k' l j Hk' Hl. rewrite Hj1 in Hk'. rewrite Hh1 in Hl.
      case_decide; [done|]. by eapply Hall. }
    destruct (IH s1 HI1 Hall1) as (s2 & Hc2 & HI2 & Hh2 & Hs2 & Hg2 & Hj2).
    exists s2. unfold bind. rewrite Hc, Hc2.
    split_and!; try congruence.
    intros k'. rewrite Hj2, Hj1.
    destruct (decide (k' ∈ ks)) as [Hin|Hout].
    + rewrite decide_True; [done|]. by right.
    + destruct (decide (k' = k)) as [->|Hne].
      * rewrite decide_True; [done|]. by left.
      * rewrite decide_False; [done|].
        intros [?|?]%elem_of_cons; done.
Qed.

Lemma cancelEach_stuck ks s k l j :
  Inv s → k ∈ ks →
  jobs s !! k = Some l → heap s !! l = Some j → job_handle j = None →
  (cancelEach ks s).1 = Throw TypeError ∧
  jobs (cancelEach ks s).2 !! k = Some l.
Proof.
  revert s. induction ks as [|k0 ks IH]; intros s HI Hin Hk Hl Hnone.
  { by apply elem_of_nil in Hin. }
  simpl. unfold bind.
  destruct (jobs s !! k0) as [l0|] eqn:Hk0.
  - destruct (cancelJob_reachable _ _ _ HI Hk0)
      as (j0 & Hl0 & [(h & Hh & ->)|[Hn ->]]); [|done].
    assert (Hne : k ≠ k0).
    { intros ->. assert (l0 = l) as -> by congruence. congruence. }
    apply IH; [by eapply Inv_cancelled| |by simpl; rewrite lookup_delete_ne
              |done|done].
    apply elem_of_cons in Hin as [?|?]; done.
  - rewrite cancelJob_absent by done.
    apply IH; try done.
    apply elem_of_cons in Hin as [->|?]; [congruence|done].
Qed.

(** X8: from a reachable state in which every registered job has a handle,
    [cancelJobs] returns normally, leaves the registry empty and no handle
    live, and does not touch the job objects, the suspended runs (they will
    still resolve) or what has been logged.  When a registered job has no
    handle, [cancelJobs] faults and that job is still registered. *)
Theorem cancelJobs_clears (s : state) :
  reachable s →
  ((∀ k, cancellable k s) →
   ∃ s', cancelJobs s = (Ret tt, s') ∧
         jobs s' = ∅ ∧ triggers s' = ∅ ∧
         heap s' = heap s ∧ suspended s' = suspended s ∧ log s' = log s) ∧
  (∀ k l j, jobs s !! k = Some l → heap s !! l = Some j →
     job_handle j = None →
     (cancelJobs s).1 = Throw TypeError ∧ jobs (cancelJobs s).2 !! k = Some l).
Proof.
  intros HI%Inv_reachable. split.
  - intros Hall.
    destruct (cancelEach_spec (map fst (map_to_list (jobs s))) s HI Hall)
      as (s' & Hc & HI' & Hh & Hs & Hg & Hj).
    assert (Hjobs : jobs s' = ∅).
    { apply map_empty. intros k. rewrite Hj.
      destruct (jobs s !! k) as [l|] eqn:Hk; [|by case_decide].
      rewrite decide_True; [done|].
      apply list_elem_of_fmap. exists (k, l). split; [done|].
      by apply elem_of_map_to_list. }
    exists s'. split_and!; try done.
    apply map_empty. intros h.
    destruct (triggers s' !! h) as [reg|] eqn:E; [|done].
    destruct (trig_env _ HI' _ _ E) as (l & j & Hk & _).
    rewrite Hjobs, lookup_empty in Hk. done.
  - intros k l j Hk Hl Hnone.
    apply (cancelEach_stuck (map fst (map_to_list (jobs s))) s k l j);
      try done.
    apply list_elem_of_fmap. exists (k, l). split; [done|].
    by apply elem_of_map_to_list.
Qed.

(** X9: [cancelJob] is idempotent from a reachable state: calling it again on
    the state it left gives the same outcome and the same state.  It returns
    normally exactly when the job registered under the key, if there is one,
    has a handle; the second call then finds the key absent. *)
Theorem cancelJob_idempotent (s : state) (k : string) :
  reachable s →
  cancelJob k (cancelJob k s).2 = cancelJob k s ∧
  ((cancelJob k s).1 = Ret tt ↔ cancellable k s) ∧
  ((cancelJob k s).1 = Ret tt → jobs (cancelJob k s).2 !! k = None).
Proof.
  intros HI%Inv_reachable.
  split_and!; [|by apply cancelJob_returns|].
  - destruct (jobs s !! k) as [l|] eqn:Hk.
    + destruct (cancelJob_reachable _ _ _ HI Hk)
        as (j & Hl & [(h & Hh & Heq)|[Hnone Heq]]); rewrite Heq; simpl.
      * apply cancelJob_absent. simpl. apply lookup_delete_eq.
      * done.
    + rewrite (cancelJob_absent s k) by done. by apply cancelJob_absent.
  - intros Hret%cancelJob_returns; [|done]. by apply cancelJob_gone.
Qed.

(** X10: cancelling one key leaves every other registered job as it was: its
    entry, its object and its live handle. *)
Theorem cancelJob_other_untouched (s : state) (k k' : string) (l' : loc)
    (j' : IJob) (h' : handle) :
  reachable s →
  k' ≠ k →
  jobs s !! k' = Some l' →
  heap s !! l' = Some j' →
  job_handle j' = Some h' →
  let s' := (cancelJob k s).2 in
  jobs s' !! k' = Some l' ∧ heap s' !! l' = Some j' ∧
  triggers s' !! h' = triggers s !! h'.
Proof.
  intros Hr Hne Hk' Hl' Hh' s'.
  pose proof (Inv_reachable _ Hr) as HI.
  unfold s'. destruct (jobs s !! k) as [l|] eqn:Hk.
  - destruct (cancelJob_reachable _ _ _ HI Hk)
      as (j & Hl & [(h & Hh & ->)|[_ ->]]); [|done].
    simpl. split_and!; [by rewrite lookup_delete_ne|done|].
    apply lookup_delete_ne. intros <-.
    destruct (registered_jobs_apart_aux s k k' l l' j j') as [_ Hd]; try done.
    by apply (Hd h).
  - rewrite cancelJob_absent by done. done.
Qed.

(** X11: a key can be registered again as soon as it has been cancelled: from a
    reachable state, when [cancelJob] of the key has returned normally, each
    schedule operation called right after it returns normally and the key is
    registered. *)
Theorem cancel_then_schedule (s : state) (k : string) (cb : val)
    (cfg : option obj) (lock : val) :
  reachable s →
  (cancelJob k s).1 = Ret tt →
  let s' := (cancelJob k s).2 in
  (∀ rule, (scheduleCronJob k rule cb cfg lock s').1 = Ret tt ∧
           is_Some (jobs (scheduleCronJob k rule cb cfg lock s').2 !! k)) ∧
  (∀ ms, (scheduleIntervalJob k ms cb cfg lock s').1 = Ret tt ∧
         is_Some (jobs (scheduleIntervalJob k ms cb cfg lock s').2 !! k)) ∧
  (∀ ms, (scheduleTimeoutJob k ms cb cfg lock s').1 = Ret tt ∧
         is_Some (jobs (scheduleTimeoutJob k ms cb cfg lock s').2 !! k)) ∧
  (∀ r, (scheduleRecurrenceJob k r cb cfg lock s').1 = Ret tt ∧
        is_Some (jobs (scheduleRecurrenceJob k r cb cfg lock s').2 !! k)).
Proof.
  intros HI%Inv_reachable Hret s'.
  assert (Hfree : jobs s' !! k = None).
  { apply cancelJob_gone; [done|]. by apply cancelJob_returns. }
  assert (Hreg : ∀ src env ty,
    c_key env = k →
    (install_and_run src env ty cfg s').1 = Ret tt ∧
    is_Some (jobs (install_and_run src env ty cfg s').2 !! k)).
  { intros src env ty <-.
    destruct (install_and_run_registers src env ty cfg s') as (-> & -> & _).
    split; [done|]. rewrite lookup_insert_eq. by eexists. }
  split_and!; intros.
  - rewrite scheduleCronJob_absent by done. by apply Hreg.
  - rewrite scheduleIntervalJob_absent by done. by apply Hreg.
  - rewrite scheduleTimeoutJob_absent by done. by apply Hreg.
  - rewrite scheduleRecurrenceJob_absent by done. by apply Hreg.
Qed.

(** X12: a run of a cron, interval or recurrence handler, or an immediate run,
    that resolves without the stop signal only sets the status of the job it
    was started on back to READY: the registry and the live handles are
    unchanged, so the job stays scheduled. *)
Theorem run_without_stop_keeps_job (s : state) (i : nat) (p : pending) :
  reachable s →
  suspended s !! i = Some p →
  c_origin (p_env p) ≠ OTimeout →
  ∃ j, heap s !! p_job p = Some j ∧
       step (AResolve i false) s
       = Some {| jobs := jobs s;
                 heap := <[p_job p := with_status READY j]> (heap s);
                 next_loc := next_loc s;
                 triggers := triggers s;
                 next_handle := next_handle s;
                 suspended := delete i (suspended s);
                 log := log s ++ [EStatus (p_job p) (status j) READY] |}.
Proof.
  intros HI%Inv_reachable Hi Horigin.
  assert (Hin : p ∈ suspended s) by (by eapply list_elem_of_lookup_2).
  destruct (pend_live _ HI _ Hin) as (j & Hl & _).
  exists j. split; [done|]. simpl. rewrite Hi; simpl.
  unfold resume, bind.
  rewrite (finish_run (p_job p) j (set_suspended (delete i) s)) by done.
  by destruct (c_origin (p_env p)).
Qed.

(** X13: the timer of a timeout job is spent by a firing that is skipped: when
    [waiting] is set and the job is not READY (its immediate run is still in
    flight), the firing starts nothing and cancels nothing, the timer is no
    longer live, and the key stays in the registry. *)
Theorem skipped_timeout_stays_registered (s : state) (h : handle)
    (reg : registration) (l : loc) (j : IJob) :
  reachable s →
  triggers s !! h = Some reg →
  c_origin (reg_handler reg) = OTimeout →
  truthy (prop (c_configs (reg_handler reg)) "waiting") = true →
  jobs s !! c_key (reg_handler reg) = Some l →
  heap s !! l = Some j →
  status j ≠ READY →
  step (AFire h) s = Some (set_triggers (delete h) s) ∧
  ∀ acts s', run acts (set_triggers (delete h) s) = Some s' →
             step (AFire h) s' = None.
Proof.
  intros HI%Inv_reachable Hh Horigin Hw Hk Hl Hst.
  destruct (trig_env _ HI _ _ Hh) as (_ & _ & _ & _ & _ & _ & Hshot).
  pose proof (Inv_trig_bound _ _ _ HI Hh) as Hlt.
  split.
  - simpl. rewrite Hh; simpl. rewrite (Hshot Horigin).
    unfold handler. rewrite Horigin.
    by rewrite (startChecked_busy _ (set_triggers (delete h) s) l j).
  - intros acts s' Hrun.
    eapply dead_handle_never_fires; [..|done]; simpl; [done|].
    apply lookup_delete_eq.
Qed.

(** X14: the part of a handler after the await cancels by key, not by job: when
    the job a run was started on has been cancelled and the key registered
    again in the meantime, a stop signal from the old run (or the end of an
    old timeout run) cancels the new job and releases its handle, while the
    READY it writes goes to the old object and the new job's object is left
    as it is. *)
Theorem late_stop_cancels_new_job (s : state) (i : nat) (p : pending)
    (needStop : bool) (l' : loc) (j' : IJob) (h' : handle) (s' : state) :
  reachable s →
  suspended s !! i = Some p →
  c_origin (p_env p) = OTimeout ∨ needStop = true →
  jobs s !! c_key (p_env p) = Some l' →
  l' ≠ p_job p →
  heap s !! l' = Some j' →
  job_handle j' = Some h' →
  step (AResolve i needStop) s = Some s' →
  jobs s' !! c_key (p_env p) = None ∧
  triggers s' !! h' = None ∧
  heap s' !! l' = Some j' ∧
  (status <$> heap s' !! p_job p) = Some READY.
Proof.
  intros HI%Inv_reachable Hi Hcancel Hk Hne Hl' Hh' Hstep.
  assert (Hin : p ∈ suspended s) by (by eapply list_elem_of_lookup_2).
  destruct (pend_live _ HI _ Hin) as (j & Hl & _).
  simpl in Hstep. rewrite Hi in Hstep; simpl in Hstep.
  injection Hstep as <-.
  set (s1 := finished (p_job p) j (set_suspended (delete i) s)).
  assert (Hres : resume p needStop (set_suspended (delete i) s)
                 = cancelJob (c_key (p_env p)) s1).
  { unfold resume, bind.
    rewrite (finish_run (p_job p) j (set_suspended (delete i) s)) by done.
    destruct Hcancel as [->| ->]; [done|]. by destruct (c_origin _). }
  rewrite Hres.
  rewrite (cancelJob_present s1 (c_key (p_env p)) l' j' h');
    [|done|by (simpl; rewrite lookup_insert_ne)|done].
  simpl. split_and!.
  - apply lookup_delete_eq.
  - apply lookup_delete_eq.
  - by rewrite lookup_insert_ne.
  - by rewrite lookup_insert_eq.
Qed.

Lemma bind_skip (m : M unit) (k1 k2 : M unit) s :
  (∀ s0, k1 s0 = (Ret tt, s0)) → (∀ s0, k2 s0 = (Ret tt, s0)) →
  (m ;; k1 ;; k2) s = m s.
Proof.
  intros H1 H2. unfold bind. destruct (m s) as [[[]|e] s1]; [|done].
  by rewrite H1, H2.
Qed.

Lemma queueJob_enabled (job : IJob) (s : state) :
  truthy (prop (assign [Some defaults; config job]) "enable") = true →
  match type job, config job with
  | cron, _ =>
      queueJob job s
      = scheduleCronJob (key job)
          (prop (assign [Some defaults; config job]) "cron") (method job)
          (Some (assign [Some defaults; config job])) (tryLock job) s
  | interval, Some c =>
      queueJob job s
      = scheduleIntervalJob (key job) (prop c "interval") (method job)
          (Some (assign [Some defaults; config job])) (tryLock job) s
  | timeout, Some c =>
      queueJob job s
      = scheduleTimeoutJob (key job) (prop c "timeout") (method job)
          (Some (assign [Some defaults; config job])) (tryLock job) s
  | _, None => queueJob job s = (Throw TypeError, s)
  end.
Proof.
  intros Hen. unfold queueJob. rewrite Hen.
  destruct (type job) eqn:Hty, (config job) as [c|] eqn:Hc; simpl;
    try (by rewrite bind_skip);
    unfold bind; simpl;
    try (by destruct (scheduleIntervalJob _ _ _ _ _ s) as [[[]|e] s1]);
    done.
Qed.

(** X15: [queueJob] does nothing for a job whose merged configuration has
    [enable] falsy; otherwise it is exactly the schedule operation of the
    job's type.  The cron rule is read from the merged configuration, the
    interval and the timeout from the job's own [config], and reading them
    from a job declared without [config] faults with nothing registered. *)
Theorem queueJob_routes (job : IJob) (s : state) :
  let cfg := assign [Some defaults; config job] in
  (truthy (prop cfg "enable") = false → queueJob job s = (Ret tt, s)) ∧
  (truthy (prop cfg "enable") = true →
   match type job, config job with
   | cron, _ =>
       queueJob job s
       = scheduleCronJob (key job) (prop cfg "cron") (method job) (Some cfg)
           (tryLock job) s
   | interval, Some c =>
       queueJob job s
       = scheduleIntervalJob (key job) (prop c "interval") (method job)
           (Some cfg) (tryLock job) s
   | timeout, Some c =>
       queueJob job s
       = scheduleTimeoutJob (key job) (prop c "timeout") (method job)
           (Some cfg) (tryLock job) s
   | _, None => queueJob job s = (Throw TypeError, s)
   end).
Proof.
  intros cfg. split; intros Hen.
  - unfold queueJob. fold cfg. by rewrite Hen.
  - by apply queueJob_enabled.
Qed.

Lemma assign_twice (o : obj) : assign [Some o; Some o] = o.
Proof.
  unfold assign; simpl. rewrite (right_id ∅ (∪)). apply (idemp (∪)).
Qed.

Lemma assign_twice_defaults (cfg : option obj) :
  assign [Some defaults; Some (assign [Some defaults; cfg])]
  = assign [Some defaults; cfg].
Proof.
  unfold assign; destruct cfg as [c|]; simpl; rewrite !(right_id ∅ (∪)).
  - rewrite <- (assoc_L (∪)). by rewrite (idemp (∪)).
  - apply (idemp (∪)).
Qed.

Lemma install_and_run_trigger src env ty cfg s :
  triggers (install_and_run src env ty cfg s).2
  = if handed_out src
    then <[next_handle s := mkReg src env]> (triggers s)
    else triggers s.
Proof.
  by destruct (install_and_run_registers src env ty cfg s)
    as (_ & _ & _ & -> & _).
Qed.

(** X16: an interval job that comes through [queueJob] does get the defaults:
    the handler installed for it closes over the merged configuration,
    because [queueJob] hands the merged object to [scheduleIntervalJob] as
    its [config]. *)
Theorem queued_interval_gets_defaults (job : IJob) (c : obj) (s : state) :
  let cfg := assign [Some defaults; Some c] in
  type job = interval →
  config job = Some c →
  truthy (prop cfg "enable") = true →
  jobs s !! key job = None →
  triggers (queueJob job s).2 !! next_handle s
  = Some (mkReg (SInterval (prop c "interval"))
            (mkClosure OInterval (key job) cfg (method job) (tryLock job))).
Proof.
  intros cfg Hty Hc Hen Hfree.
  pose proof (queueJob_enabled job s) as Hroute.
  rewrite Hc in Hroute. specialize (Hroute Hen).
  rewrite Hty in Hroute. rewrite Hroute.
  rewrite scheduleIntervalJob_absent by done.
  rewrite install_and_run_trigger; simpl.
  rewrite lookup_insert_eq. by rewrite assign_twice.
Qed.

(** X17: for a cron job that comes through [queueJob] with a rule string, the
    [start] and [end] handed to the trigger source are the [startTime] and
    [endTime] of the merged configuration, defaults included, and the job
    object stores the merged configuration.  What is handed over is what
    the trigger source registers when it can schedule it; when it cannot, it
    registers nothing. *)
Theorem queued_cron_bounds_merged (job : IJob) (r : string) (s : state) :
  let cfg := assign [Some defaults; config job] in
  let spec := SRule {[ "start" := prop cfg "startTime";
                       "end" := prop cfg "endTime";
                       "rule" := VStr r ]} in
  type job = cron →
  truthy (prop cfg "enable") = true →
  prop cfg "cron" = VStr r →
  jobs s !! key job = None →
  (if schedulable spec
   then triggers (queueJob job s).2 !! next_handle s
        = Some (mkReg spec
                  (mkClosure OCron (key job) cfg (method job) (tryLock job)))
   else triggers (queueJob job s).2 = triggers s) ∧
  (config <$> heap (queueJob job s).2 !! next_loc s) = Some (Some cfg).
Proof.
  intros cfg spec Hty Hen Hrule Hfree.
  pose proof (queueJob_enabled job s Hen) as Hroute.
  rewrite Hty in Hroute.
  assert (Hq : queueJob job s
               = scheduleCronJob (key job) (prop cfg "cron") (method job)
                   (Some cfg) (tryLock job) s) by (by destruct (config job)).
  rewrite Hq, scheduleCronJob_absent by done.
  rewrite install_and_run_trigger, Hrule.
  assert (Hcfg : assign [Some defaults; Some cfg] = cfg)
    by apply assign_twice_defaults.
  rewrite Hcfg. split.
  - change (handed_out (SRule (cronJob (VStr r) (Some cfg))))
      with (schedulable spec).
    destruct (schedulable spec); [apply lookup_insert_eq|done].
  - destruct (install_and_run_registers
                (SRule (cronJob (VStr r) (Some cfg)))
                (mkClosure OCron (key job) cfg (method job) (tryLock job))
                cron (Some cfg) s) as (_ & _ & -> & _).
    by rewrite lookup_insert_eq.
Qed.

(** X22: what [cancelJob] does in a reachable state.  On a key that is not
    registered it returns with the state untouched.  On a registered key
    whose job has a handle (the [instance] of a cron job, the [timer] of an
    interval or timeout job) it releases that handle and deletes that one
    entry, and changes nothing else.  On a registered key whose job has no
    handle, which is a cron job whose rule the trigger source could not
    schedule, it faults on [job.instance!.cancel()] with the state
    untouched, the entry included. *)
Theorem cancelJob_outcome (s : state) (k : string) :
  reachable s →
  match jobs s !! k with
  | None => cancelJob k s = (Ret tt, s)
  | Some l =>
      ∃ j, heap s !! l = Some j ∧
           match job_handle j with
           | Some h =>
               cancelJob k s
               = (Ret tt,
                  {| jobs := delete k (jobs s); heap := heap s;
                     next_loc := next_loc s;
                     triggers := delete h (triggers s);
                     next_handle := next_handle s;
                     suspended := suspended s; log := log s |})
           | None =>
               type j = cron ∧ instance j = None ∧
               cancelJob k s = (Throw TypeError, s)
           end
  end.
Proof.
  intros HI%Inv_reachable. destruct (jobs s !! k) as [l|] eqn:Hk.
  - destruct (cancelJob_reachable _ _ _ HI Hk)
      as (j & Hl & [(h & Hh & Heq)|[Hnone Heq]]);
      exists j; (split; [done|]).
    + by rewrite Hh.
    + rewrite Hnone.
      assert (Hty : type j = cron).
      { destruct (decide (type j = cron)) as [|Hty]; [done|].
        destruct (timer_set _ HI _ _ Hl Hty) as [h Hh]. congruence. }
      split_and!; [done| |done].
      unfold job_handle in Hnone. by rewrite Hty in Hnone.
  - by apply cancelJob_absent.
Qed.

End Scheduler.

(** ** Concrete runs *)

(** The trigger source of the concrete runs: [schedule.scheduleJob] is taken
    to schedule every rule but the string ["not a cron"], which is not a
    cron expression. *)
Definition accepts (src : source) : bool :=
  match src with
  | SRule spec =>
      match spec !! "rule" with
      | Some (VStr r) => negb (String.eqb r "not a cron")
      | _ => true
      end
  | _ => true
  end.

(** A cron job with the default configuration, fired twice before the first
    run has resolved. *)
Definition overlap_trace : list action :=
  [AScheduleCronJob "job" (VStr "* * * * *") (VFun 0) None VUndef;
   AFire 0; AFire 0].

Definition overlap_state : state :=
  default init (run spec_defaults accepts overlap_trace init).

(** A cron job registered with [waiting] set, fired once: its run is in
    flight. *)
Definition busy_trace : list action :=
  [AScheduleCronJob "job" (VStr "* * * * *") (VFun 0)
     (Some {[ "waiting" := VBool true ]}) VUndef;
   AFire 0].

Definition busy_state : state :=
  default init (run spec_defaults accepts busy_trace init).

Definition busy_env : closure :=
  mkClosure OCron "job"
    (assign [Some spec_defaults; Some {[ "waiting" := VBool true ]}])
    (VFun 0) VUndef.

(** The same job after the run has resolved without the stop signal. *)
Definition settled_state : state :=
  default init (run spec_defaults accepts (busy_trace ++ [AResolve 0 false]) init).

(** A timeout job, armed and then fired. *)
Definition once_trace : list action :=
  [AScheduleTimeoutJob "once" (VNum 1000) (VFun 0) None VUndef; AFire 0].

Definition once_armed : state :=
  default init (run spec_defaults accepts (take 1 once_trace) init).

Definition once_fired : state :=
  default init (run spec_defaults accepts once_trace init).

(** An interval job, armed, fired, and stopped by its run. *)
Definition tick_trace : list action :=
  [AScheduleIntervalJob "tick" (VNum 1000) (VFun 0) None VUndef; AFire 0;
   AResolve 0 true].

Definition tick_armed : state :=
  default init (run spec_defaults accepts (take 1 tick_trace) init).

Definition tick_fired : state :=
  default init (run spec_defaults accepts (take 2 tick_trace) init).

Definition tick_stopped : state :=
  default init (run spec_defaults accepts tick_trace init).

(** A timeout job registered with [immediate] and [waiting]: its immediate run
    is in flight while the timer is still to fire. *)
Definition eager_config : obj :=
  {[ "immediate" := VBool true; "waiting" := VBool true ]}.

Definition eager_trace : list action :=
  [AScheduleTimeoutJob "once" (VNum 500) (VFun 1) (Some eager_config) VUndef].

Definition eager_state : state :=
  default init (run spec_defaults accepts eager_trace init).

(** The same job once its timer has fired: the firing was skipped. *)
Definition eager_fired : state :=
  default init (run spec_defaults accepts (eager_trace ++ [AFire 0]) init).

(** A cron job whose rule the trigger source cannot schedule. *)
Definition bad_trace : list action :=
  [AScheduleCronJob "bad" (VStr "not a cron") (VFun 0) None VUndef].

Definition bad_state : state :=
  default init (run spec_defaults accepts bad_trace init).

(** Defaults that set a start time, to see whether it reaches the trigger. *)
Definition dated_defaults : obj := <["startTime" := VDate 100]> spec_defaults.

Lemma duplicate_key_rejected_witness :
  is_Some (jobs once_armed !! "once") ∧
  scheduleIntervalJob "once" (VNum 5) (VFun 1) None VUndef once_armed
  = (Throw (JobRepeatException "The job once is exists."), once_armed).
Proof.
  assert (H : is_Some (jobs once_armed !! "once")).
  { exists 0. vm_compute. reflexivity. }
  split; [exact H|].
  apply (duplicate_key_rejected spec_defaults accepts once_armed "once" H).
Defined.

(** C2: at [scheduleIntervalJob('job', 1000, cb, {waiting: true})] the
    handler's configuration is the per-job object alone: [retryInterval] and
    [maxRetry] are undefined although the defaults give 5000 and -1, and the
    executor of a firing is built from that object.  [scheduleTimeoutJob]
    with the same arguments gets the defaults. *)
Theorem interval_handler_lacks_defaults :
  let cfg : obj := {[ "waiting" := VBool true ]} in
  let s := (scheduleIntervalJob "job" (VNum 1000) (VFun 0) (Some cfg) VUndef
              init).2 in
  let s' := (scheduleTimeoutJob spec_defaults "job" (VNum 1000) (VFun 0)
               (Some cfg) VUndef init).2 in
  (c_configs ∘ reg_handler) <$> triggers s !! 0 = Some cfg ∧
  (log <$> step spec_defaults accepts (AFire 0) s)
  = Some [EStatus 0 READY RUNNING; EExecute "job" (VFun 0) VUndef cfg] ∧
  prop cfg "retryInterval" = VUndef ∧
  prop cfg "maxRetry" = VUndef ∧
  prop spec_defaults "retryInterval" = VNum 5000 ∧
  prop spec_defaults "maxRetry" = VNum (-1) ∧
  (c_configs ∘ reg_handler) <$> triggers s' !! 0 = Some (cfg ∪ spec_defaults).
Proof. repeat split; vm_compute; reflexivity. Qed.

(** C3, as stated, fails: with the default [waiting=false], a second firing
    while the first run is in flight assigns RUNNING to a job that is
    RUNNING. *)
Lemma status_running_twice :
  ¬ (∀ s l old new, reachable spec_defaults accepts s →
       EStatus l old new ∈ log s → legal old new).
Proof.
  intros H.
  assert (Hbad : legal RUNNING RUNNING).
  { apply (H overlap_state 0).
    - exists overlap_trace. vm_compute. reflexivity.
    - apply (list_elem_of_lookup_2 _ 2). vm_compute. reflexivity. }
  destruct Hbad as [[? _]|[_ ?]]; discriminate.
Qed.

Lemma status_transitions_when_waiting_witness :
  reachable spec_defaults accepts settled_state ∧
  waiting spec_defaults
    (mkJob cron (Some {[ "waiting" := VBool true ]}) "job" VUndef VUndef None
       (Some 0) READY) = true ∧
  EStatus 0 RUNNING READY ∈ log settled_state ∧
  legal RUNNING READY.
Proof.
  assert (Hr : reachable spec_defaults accepts settled_state).
  { exists (busy_trace ++ [AResolve 0 false]). vm_compute. reflexivity. }
  assert (He : EStatus 0 RUNNING READY ∈ log settled_state).
  { apply (list_elem_of_lookup_2 _ 2). vm_compute. reflexivity. }
  split_and!; [exact Hr|vm_compute; reflexivity|exact He|].
  apply (status_transitions_when_waiting spec_defaults accepts settled_state 0
           (mkJob cron (Some {[ "waiting" := VBool true ]}) "job" VUndef VUndef
              None (Some 0) READY) RUNNING READY Hr);
    [vm_compute; reflexivity|vm_compute; reflexivity|exact He].
Defined.

(** C4, as stated, fails: a timeout job registered with [immediate] and
    [waiting] set has its immediate run in flight when the timer fires, so
    the firing is skipped; when that run, the only one the job ever gets,
    completes without the stop signal, nothing cancels the job and its key
    stays in the registry. *)
Lemma timeout_job_left_registered :
  ¬ (∀ s i p needStop s' j,
       reachable spec_defaults accepts s →
       suspended s !! i = Some p →
       heap s !! p_job p = Some j →
       type j = timeout →
       step spec_defaults accepts (AResolve i needStop) s = Some s' →
       jobs s' !! c_key (p_env p) = None).
Proof.
  intros H.
  pose (env := mkClosure OImmediate "once"
                 (assign [Some spec_defaults; Some eager_config]) (VFun 1)
                 VUndef).
  assert (Hgone :
    jobs (default init (step spec_defaults accepts (AResolve 0 false)
                          eager_fired)) !! "once" = None).
  { apply (H eager_fired 0 (mkPending env 0) false _
             (with_status RUNNING
                (fresh_job "once" timeout (Some eager_config) (Some 0)))).
    - exists (eager_trace ++ [AFire 0]). vm_compute. reflexivity.
    - vm_compute. reflexivity.
    - vm_compute. reflexivity.
    - reflexivity.
    - vm_compute. reflexivity. }
  vm_compute in Hgone. discriminate.
Qed.

Lemma timeout_job_runs_once_witness :
  reachable spec_defaults accepts once_armed ∧
  reachable spec_defaults accepts once_fired ∧
  step spec_defaults accepts (AFire 0) once_fired = None ∧
  ∀ needStop s',
    step spec_defaults accepts (AResolve 0 needStop) once_fired = Some s' →
    (∀ k, jobs s' !! k ≠ Some 0) ∧ triggers s' !! 0 = None.
Proof.
  pose (env := mkClosure OTimeout "once" spec_defaults (VFun 0) VUndef).
  assert (Ha : reachable spec_defaults accepts once_armed).
  { exists (take 1 once_trace). vm_compute. reflexivity. }
  assert (Hf : reachable spec_defaults accepts once_fired).
  { exists once_trace. vm_compute. reflexivity. }
  assert (Hreg : triggers once_armed !! 0 = Some (mkReg (STimeout (VNum 1000)) env)).
  { vm_compute. reflexivity. }
  assert (Hrun : run spec_defaults accepts [AFire 0] once_armed
                 = Some once_fired).
  { vm_compute. reflexivity. }
  assert (Hp : suspended once_fired !! 0 = Some (mkPending env 0)).
  { vm_compute. reflexivity. }
  assert (Hj : heap once_fired !! 0
               = Some (with_status RUNNING
                         (fresh_job "once" timeout None (Some 0)))).
  { vm_compute. reflexivity. }
  destruct (timeout_job_runs_once spec_defaults accepts once_armed Ha)
    as (Hfire & _ & _).
  destruct (timeout_job_runs_once spec_defaults accepts once_fired Hf)
    as (_ & Hdone & _).
  destruct (Hfire 0 _ Hreg eq_refl) as (l & j & _ & _ & _ & _ & Honce).
  split_and!; [exact Ha|exact Hf|exact (Honce [] once_fired Hrun)|].
  intros needStop s' Hs'.
  destruct (Hdone 0 _ needStop s' Hp eq_refl Hs')
    as (_ & Hout & j' & h & Hj' & Hh & Hdead).
  split; [exact Hout|].
  change (heap once_fired !! 0 = Some j') in Hj'.
  rewrite Hj in Hj'. injection Hj' as <-. injection Hh as <-. exact Hdead.
Defined.

Lemma cron_bounds_from_raw_config_witness :
  jobs init !! "job" = None ∧
  prop dated_defaults "startTime" = VDate 100 ∧
  triggers (scheduleCronJob dated_defaults accepts "job" (VStr "0 0 2 * *")
              (VFun 0) None VUndef init).2 !! 0
  = Some (mkReg
            (SRule {[ "start" := VNull; "end" := VNull;
                      "rule" := VStr "0 0 2 * *" ]})
            (mkClosure OCron "job" dated_defaults (VFun 0) VUndef)).
Proof.
  split_and!; [reflexivity|vm_compute; reflexivity|].
  pose proof (proj1 (cron_bounds_from_raw_config dated_defaults accepts init
                       "job" (VFun 0) None VUndef eq_refl) "0 0 2 * *") as H.
  vm_compute in H. vm_compute. exact H.
Defined.

(** C6: [scheduleTimeoutJob('job', 1000, cb, {enable: false})] arms the timer
    all the same, and when the timer fires the executor is called; [queueJob]
    with the same configuration registers nothing. *)
Theorem disabled_job_still_runs :
  let cfg : obj := {[ "enable" := VBool false ]} in
  truthy (prop (assign [Some spec_defaults; Some cfg]) "enable") = false ∧
  (∃ s, run spec_defaults accepts
          [AScheduleTimeoutJob "job" (VNum 1000) (VFun 0) (Some cfg) VUndef;
           AFire 0] init = Some s ∧
        log s = [EStatus 0 READY RUNNING;
                 EExecute "job" (VFun 0) VUndef (cfg ∪ spec_defaults)]) ∧
  queueJob spec_defaults accepts
    (mkJob timeout (Some (<["timeout" := VNum 1000]> cfg)) "job" (VFun 0)
       VUndef None None READY) init
  = (Ret tt, init).
Proof.
  split_and!; [vm_compute; reflexivity| |vm_compute; reflexivity].
  eexists. split; vm_compute; reflexivity.
Qed.

Lemma waiting_skips_busy_job_witness :
  jobs busy_state !! "job" = Some 0 ∧
  status <$> heap busy_state !! 0 = Some RUNNING ∧
  truthy (prop (c_configs busy_env) "waiting") = true ∧
  handler busy_env busy_state = (Ret tt, busy_state).
Proof.
  split_and!; [vm_compute; reflexivity..|].
  eapply (proj1 (waiting_skips_busy_job spec_defaults accepts busy_env busy_state 0 _ _ _ _ _)).
  Unshelve.
  - exact (mkJob cron (Some {[ "waiting" := VBool true ]}) "job" VUndef VUndef
             None (Some 0) RUNNING).
  - vm_compute. reflexivity.
  - vm_compute. reflexivity.
  - vm_compute. reflexivity.
  - discriminate.
Defined.

Lemma stop_signal_cancels_witness :
  reachable spec_defaults accepts tick_fired ∧
  step spec_defaults accepts (AResolve 0 true) tick_fired = Some tick_stopped ∧
  jobs tick_stopped !! "tick" = None ∧
  triggers tick_stopped !! 0 = None ∧
  step spec_defaults accepts (AFire 0) tick_stopped = None.
Proof.
  assert (Hf : reachable spec_defaults accepts tick_fired).
  { exists (take 2 tick_trace). vm_compute. reflexivity. }
  assert (Hstep : step spec_defaults accepts (AResolve 0 true) tick_fired
                  = Some tick_stopped).
  { vm_compute. reflexivity. }
  assert (Hk : jobs tick_fired !! "tick" = Some 0) by (vm_compute; reflexivity).
  assert (Hne : OInterval ≠ OImmediate) by discriminate.
  destruct (stop_signal_cancels spec_defaults accepts tick_fired 0
              (mkPending (mkClosure OInterval "tick" ∅ (VFun 0) VUndef) 0)
              tick_stopped Hf) as (_ & Hfired & Hhandle);
    [vm_compute; reflexivity|exact Hstep|].
  destruct (Hfired Hne) as (_ & Hgone & _).
  destruct (Hhandle (mkJob interval None "tick" VUndef VUndef (Some 0) None
                       RUNNING) 0) as [Hdead Hnever];
    [vm_compute; reflexivity|reflexivity|].
  split_and!; [exact Hf|exact Hstep|exact (Hgone Hk)|exact Hdead|].
  exact (Hnever [] tick_stopped eq_refl).
Defined.

(** C9: [scheduleCronJob('bad', 'not a cron', cb)] stores a job whose
    [instance] is the [null] that [schedule.scheduleJob] answered.
    [cancelJob('bad')] then faults on [job.instance!.cancel()] (line 61)
    before it reaches [this.jobs.delete(key)] (line 72): no handle is
    released and the entry stays, on this and on every later call.  With a
    rule the trigger source can schedule, the same two calls leave the
    registry empty. *)
Theorem cancelJob_faults_without_instance :
  let s := (scheduleCronJob spec_defaults accepts "bad" (VStr "not a cron")
              (VFun 0) None VUndef init).2 in
  let s' := (scheduleCronJob spec_defaults accepts "good" (VStr "* * * * *")
               (VFun 0) None VUndef init).2 in
  reachable spec_defaults accepts s ∧
  jobs s !! "bad" = Some 0 ∧
  heap s !! 0 = Some (fresh_job "bad" cron None None) ∧
  triggers s = ∅ ∧
  cancelJob "bad" s = (Throw TypeError, s) ∧
  jobs (cancelJob "bad" s).2 !! "bad" = Some 0 ∧
  (cancelJob "good" s').1 = Ret tt ∧
  jobs (cancelJob "good" s').2 = ∅.
Proof.
  intros s s'. split; [exists bad_trace; vm_compute; reflexivity|].
  split_and!; vm_compute; reflexivity.
Qed.

Lemma handler_on_missing_entry_witness :
  jobs init !! "job" = None ∧
  handler (mkClosure OCron "job" spec_defaults (VFun 0) VUndef) init
  = (Throw TypeError, init) ∧
  handler (mkClosure OInterval "job" spec_defaults (VFun 0) VUndef) init
  = (Ret tt, init).
Proof.
  split_and!; [reflexivity| |].
  - exact (handler_on_missing_entry
             (mkClosure OCron "job" spec_defaults (VFun 0) VUndef) init eq_refl).
  - exact (handler_on_missing_entry
             (mkClosure OInterval "job" spec_defaults (VFun 0) VUndef) init
             eq_refl).
Defined.

(** ** Concrete runs for the further properties *)

(** An interval job and a timeout job side by side. *)
Definition pair_trace : list action :=
  [AScheduleIntervalJob "tick" (VNum 1000) (VFun 0) None VUndef;
   AScheduleTimeoutJob "once" (VNum 500) (VFun 1) None VUndef].

Definition pair_state : state :=
  default init (run spec_defaults accepts pair_trace init).

(** An interval job fired, cancelled while its run is in flight, and its key
    registered again as a timeout job. *)
Definition reuse_trace : list action :=
  [AScheduleIntervalJob "tick" (VNum 1000) (VFun 0) None VUndef; AFire 0;
   ACancelJob "tick";
   AScheduleTimeoutJob "tick" (VNum 500) (VFun 1) None VUndef].

Definition reuse_state : state :=
  default init (run spec_defaults accepts reuse_trace init).

(** Jobs as a declaration would hand them to [queueJob]. *)
Definition declared_interval : IJob :=
  mkJob interval (Some {[ "interval" := VNum 1000 ]}) "beat" (VFun 2) VUndef
    None None READY.

Definition declared_cron : IJob :=
  mkJob cron (Some {[ "cron" := VStr "0 0 2 * *" ]}) "nightly" (VFun 3) VUndef
    None None READY.

Lemma reachable_tick_armed : reachable spec_defaults accepts tick_armed.
Proof. exists (take 1 tick_trace). vm_compute. reflexivity. Qed.

Lemma reachable_tick_fired : reachable spec_defaults accepts tick_fired.
Proof. exists (take 2 tick_trace). vm_compute. reflexivity. Qed.

Lemma reachable_busy_state : reachable spec_defaults accepts busy_state.
Proof. exists busy_trace. vm_compute. reflexivity. Qed.

Lemma reachable_pair_state : reachable spec_defaults accepts pair_state.
Proof. exists pair_trace. vm_compute. reflexivity. Qed.

Lemma reachable_eager_state : reachable spec_defaults accepts eager_state.
Proof. exists eager_trace. vm_compute. reflexivity. Qed.

Lemma reachable_reuse_state : reachable spec_defaults accepts reuse_state.
Proof. exists reuse_trace. vm_compute. reflexivity. Qed.

Lemma schedule_registers_witness :
  jobs init !! "once" = None ∧
  registers accepts timeout (Some eager_config) (STimeout (VNum 500))
    (mkClosure OTimeout "once"
       (assign [Some spec_defaults; Some eager_config]) (VFun 1) VUndef)
    init
    (scheduleTimeoutJob spec_defaults "once" (VNum 500) (VFun 1)
       (Some eager_config) VUndef init) ∧
  registers accepts cron None (SRule (cronJob (VStr "not a cron") None))
    (mkClosure OCron "once" (assign [Some spec_defaults; None]) (VFun 1) VUndef)
    init
    (scheduleCronJob spec_defaults accepts "once" (VStr "not a cron") (VFun 1)
       None VUndef init).
Proof.
  split_and!; [reflexivity| |].
  - exact (proj1 (proj2 (proj2
      (schedule_registers spec_defaults accepts init "once" (VFun 1)
         (Some eager_config) VUndef eq_refl))) (VNum 500)).
  - exact (proj1
      (schedule_registers spec_defaults accepts init "once" (VFun 1)
         None VUndef eq_refl) (VStr "not a cron")).
Defined.

Lemma schedule_then_cancel_witness :
  reachable spec_defaults accepts tick_armed ∧
  jobs tick_armed !! "once" = None ∧
  undone_by_cancel "once" tick_armed
    (scheduleTimeoutJob spec_defaults "once" (VNum 500) (VFun 1)
       (Some eager_config) VUndef tick_armed).
Proof.
  assert (Hk : jobs tick_armed !! "once" = None) by (vm_compute; reflexivity).
  split_and!; [exact reachable_tick_armed|exact Hk|].
  exact (proj1 (proj2 (proj2
    (schedule_then_cancel spec_defaults accepts tick_armed "once" (VFun 1)
       (Some eager_config) VUndef reachable_tick_armed Hk))) (VNum 500)).
Defined.

Lemma live_trigger_owned_witness :
  reachable spec_defaults accepts tick_armed ∧
  ∃ reg, triggers tick_armed !! 0 = Some reg ∧
  ∃ l j, jobs tick_armed !! c_key (reg_handler reg) = Some l ∧
         heap tick_armed !! l = Some j ∧
         key j = c_key (reg_handler reg) ∧
         job_handle j = Some 0 ∧
         c_configs (reg_handler reg) = configs_of spec_defaults j.
Proof.
  split; [exact reachable_tick_armed|].
  exists (mkReg (SInterval (VNum 1000))
            (mkClosure OInterval "tick" ∅ (VFun 0) VUndef)).
  assert (Hh : triggers tick_armed !! 0
               = Some (mkReg (SInterval (VNum 1000))
                         (mkClosure OInterval "tick" ∅ (VFun 0) VUndef)))
    by (vm_compute; reflexivity).
  split; [exact Hh|].
  exact (live_trigger_owned spec_defaults accepts tick_armed 0 _ reachable_tick_armed Hh).
Defined.

Lemma registered_jobs_apart_witness :
  reachable spec_defaults accepts pair_state ∧
  jobs pair_state !! "tick" = Some 0 ∧
  jobs pair_state !! "once" = Some 1 ∧
  job_handle (fresh_job "tick" interval None (Some 0)) = Some 0 ∧
  job_handle (fresh_job "once" timeout None (Some 1)) ≠ Some 0.
Proof.
  assert (H1 : jobs pair_state !! "tick" = Some 0) by (vm_compute; reflexivity).
  assert (H2 : jobs pair_state !! "once" = Some 1) by (vm_compute; reflexivity).
  split_and!; [exact reachable_pair_state|exact H1|exact H2|reflexivity|].
  refine (proj1 (proj2
    (registered_jobs_apart spec_defaults accepts pair_state "tick" "once" 0 1
       (fresh_job "tick" interval None (Some 0))
       (fresh_job "once" timeout None (Some 1))
       reachable_pair_state _ H1 _ H2 _)) 0 eq_refl).
  - discriminate.
  - vm_compute. reflexivity.
  - vm_compute. reflexivity.
Defined.

Lemma running_job_has_run_in_flight_witness :
  reachable spec_defaults accepts tick_fired ∧
  heap tick_fired !! 0
  = Some (with_status RUNNING (fresh_job "tick" interval None (Some 0))) ∧
  0 < in_flight 0 (suspended tick_fired).
Proof.
  assert (Hl : heap tick_fired !! 0
               = Some (with_status RUNNING (fresh_job "tick" interval None (Some 0))))
    by (vm_compute; reflexivity).
  split_and!; [exact reachable_tick_fired|exact Hl|].
  exact (running_job_has_run_in_flight spec_defaults accepts tick_fired 0 _
           reachable_tick_fired Hl eq_refl).
Defined.

Lemma waiting_job_single_run_witness :
  reachable spec_defaults accepts busy_state ∧
  in_flight 0 (suspended busy_state) = 1.
Proof.
  split; [exact reachable_busy_state|].
  refine (waiting_job_single_run spec_defaults accepts busy_state 0
            (with_status RUNNING
               (fresh_job "job" cron (Some {[ "waiting" := VBool true ]}) (Some 0)))
            reachable_busy_state _ _).
  - vm_compute. reflexivity.
  - vm_compute. reflexivity.
Defined.

Lemma firing_from_reachable_state_witness :
  reachable spec_defaults accepts tick_armed ∧
  step spec_defaults accepts (AFire 0) tick_armed = Some tick_fired.
Proof.
  split; [exact reachable_tick_armed|].
  assert (Hh : triggers tick_armed !! 0
               = Some (mkReg (SInterval (VNum 1000))
                         (mkClosure OInterval "tick" ∅ (VFun 0) VUndef)))
    by (vm_compute; reflexivity).
  destruct (firing_from_reachable_state spec_defaults accepts tick_armed 0 _
              reachable_tick_armed Hh) as (l & j & _ & _ & _ & Hstep).
  rewrite Hstep. vm_compute. reflexivity.
Defined.

Lemma cancelJobs_clears_witness :
  reachable spec_defaults accepts pair_state ∧
  (∀ k, cancellable k pair_state) ∧
  ∃ s', cancelJobs pair_state = (Ret tt, s') ∧ jobs s' = ∅ ∧ triggers s' = ∅.
Proof.
  assert (Hheap : heap pair_state
                  = <[1 := fresh_job "once" timeout None (Some 1)]>
                      (<[0 := fresh_job "tick" interval None (Some 0)]> ∅))
    by (vm_compute; reflexivity).
  assert (Hall : ∀ k, cancellable k pair_state).
  { intros k l j _ Hl. rewrite Hheap in Hl.
    apply lookup_insert_Some in Hl as [[_ <-]|[_ Hl]]; [by eexists|].
    apply lookup_insert_Some in Hl as [[_ <-]|[_ Hl]]; [by eexists|].
    by rewrite lookup_empty in Hl. }
  split_and!; [exact reachable_pair_state|exact Hall|].
  destruct (proj1 (cancelJobs_clears spec_defaults accepts pair_state
                     reachable_pair_state) Hall)
    as (s' & Hc & Hj & Ht & _).
  exists s'. by split_and!.
Defined.

Lemma cancelJob_idempotent_witness :
  reachable spec_defaults accepts tick_armed ∧
  cancelJob "tick" (cancelJob "tick" tick_armed).2
  = cancelJob "tick" tick_armed.
Proof.
  split; [exact reachable_tick_armed|].
  exact (proj1 (cancelJob_idempotent spec_defaults accepts tick_armed "tick"
                  reachable_tick_armed)).
Defined.

Lemma cancelJob_other_untouched_witness :
  reachable spec_defaults accepts pair_state ∧
  jobs (cancelJob "tick" pair_state).2 !! "once" = Some 1 ∧
  triggers (cancelJob "tick" pair_state).2 !! 1 = triggers pair_state !! 1.
Proof.
  split; [exact reachable_pair_state|].
  destruct (cancelJob_other_untouched spec_defaults accepts pair_state "tick" "once" 1
              (fresh_job "once" timeout None (Some 1)) 1 reachable_pair_state)
    as (Hk & _ & Ht);
    [discriminate|vm_compute; reflexivity..|reflexivity|].
  by split.
Defined.

Lemma cancel_then_schedule_witness :
  reachable spec_defaults accepts tick_armed ∧
  (cancelJob "tick" tick_armed).1 = Ret tt ∧
  (scheduleTimeoutJob spec_defaults "tick" (VNum 500) (VFun 1) None VUndef
     (cancelJob "tick" tick_armed).2).1 = Ret tt.
Proof.
  assert (Hret : (cancelJob "tick" tick_armed).1 = Ret tt)
    by (vm_compute; reflexivity).
  split_and!; [exact reachable_tick_armed|exact Hret|].
  exact (proj1 (proj1 (proj2 (proj2
    (cancel_then_schedule spec_defaults accepts tick_armed "tick" (VFun 1) None
       VUndef reachable_tick_armed Hret))) (VNum 500))).
Defined.

Lemma run_without_stop_keeps_job_witness :
  reachable spec_defaults accepts tick_fired ∧
  ∃ s', step spec_defaults accepts (AResolve 0 false) tick_fired = Some s' ∧
        jobs s' = jobs tick_fired ∧ triggers s' = triggers tick_fired.
Proof.
  split; [exact reachable_tick_fired|].
  destruct (run_without_stop_keeps_job spec_defaults accepts tick_fired 0
              (mkPending (mkClosure OInterval "tick" ∅ (VFun 0) VUndef) 0)
              reachable_tick_fired) as (j & _ & Hstep);
    [vm_compute; reflexivity|discriminate|].
  eexists. split; [exact Hstep|]. by split.
Defined.

Lemma skipped_timeout_stays_registered_witness :
  reachable spec_defaults accepts eager_state ∧
  step spec_defaults accepts (AFire 0) eager_state
  = Some (set_triggers (delete 0) eager_state) ∧
  jobs (set_triggers (delete 0) eager_state) !! "once" = Some 0.
Proof.
  split_and!; [exact reachable_eager_state| |vm_compute; reflexivity].
  refine (proj1
    (skipped_timeout_stays_registered spec_defaults accepts eager_state 0
       (mkReg (STimeout (VNum 500))
          (mkClosure OTimeout "once"
             (assign [Some spec_defaults; Some eager_config]) (VFun 1) VUndef))
       0 (with_status RUNNING (fresh_job "once" timeout (Some eager_config) (Some 0)))
       reachable_eager_state _ eq_refl _ _ _ _)).
  - vm_compute. reflexivity.
  - vm_compute. reflexivity.
  - vm_compute. reflexivity.
  - vm_compute. reflexivity.
  - discriminate.
Defined.

Lemma late_stop_cancels_new_job_witness :
  reachable spec_defaults accepts reuse_state ∧
  jobs reuse_state !! "tick" = Some 1 ∧
  ∀ s', step spec_defaults accepts (AResolve 0 true) reuse_state = Some s' →
        jobs s' !! "tick" = None ∧ triggers s' !! 1 = None.
Proof.
  assert (Hk : jobs reuse_state !! "tick" = Some 1) by (vm_compute; reflexivity).
  split_and!; [exact reachable_reuse_state|exact Hk|].
  intros s' Hstep.
  destruct (late_stop_cancels_new_job spec_defaults accepts reuse_state 0
              (mkPending (mkClosure OInterval "tick" ∅ (VFun 0) VUndef) 0)
              true 1 (fresh_job "tick" timeout None (Some 1)) 1 s'
              reachable_reuse_state) as (Hgone & Hdead & _);
    [vm_compute; reflexivity|by right|exact Hk|discriminate
    |vm_compute; reflexivity|reflexivity|exact Hstep|].
  by split.
Defined.

Lemma queued_interval_gets_defaults_witness :
  triggers (queueJob spec_defaults accepts declared_interval init).2 !! 0
  = Some (mkReg (SInterval (VNum 1000))
            (mkClosure OInterval "beat"
               (assign [Some spec_defaults; Some {[ "interval" := VNum 1000 ]}])
               (VFun 2) VUndef)).
Proof.
  assert (Hen : truthy (prop (assign [Some spec_defaults;
                                      Some {[ "interval" := VNum 1000 ]}])
                          "enable") = true) by (vm_compute; reflexivity).
  pose proof (queued_interval_gets_defaults spec_defaults accepts declared_interval
                {[ "interval" := VNum 1000 ]} init eq_refl eq_refl Hen eq_refl)
    as Hreg.
  vm_compute in Hreg. vm_compute. exact Hreg.
Defined.

Lemma queued_cron_bounds_merged_witness :
  prop (assign [Some dated_defaults; config declared_cron]) "startTime"
  = VDate 100 ∧
  (reg_source <$> triggers (queueJob dated_defaults accepts declared_cron
                              init).2 !! 0)
  = Some (SRule {[ "start" := VDate 100; "end" := VUndef;
                   "rule" := VStr "0 0 2 * *" ]}).
Proof.
  split; [vm_compute; reflexivity|].
  destruct (queued_cron_bounds_merged dated_defaults accepts declared_cron
              "0 0 2 * *" init) as [Hreg _];
    [reflexivity|vm_compute; reflexivity|vm_compute; reflexivity|reflexivity|].
  vm_compute in Hreg.
  pose proof (f_equal (fmap reg_source) Hreg) as Hsrc.
  vm_compute in Hsrc. vm_compute. exact Hsrc.
Defined.

Lemma cancelJob_outcome_witness :
  reachable spec_defaults accepts tick_armed ∧
  cancelJob "tick" tick_armed
  = (Ret tt,
     {| jobs := ∅; heap := heap tick_armed; next_loc := 1; triggers := ∅;
        next_handle := 1; suspended := []; log := [] |}) ∧
  reachable spec_defaults accepts bad_state ∧
  cancelJob "bad" bad_state = (Throw TypeError, bad_state).
Proof.
  assert (Hb : reachable spec_defaults accepts bad_state).
  { exists bad_trace. vm_compute. reflexivity. }
  pose proof (cancelJob_outcome spec_defaults accepts tick_armed "tick"
                reachable_tick_armed) as H1.
  pose proof (cancelJob_outcome spec_defaults accepts bad_state "bad" Hb) as H2.
  assert (Hk1 : jobs tick_armed !! "tick" = Some 0) by (vm_compute; reflexivity).
  assert (Hk2 : jobs bad_state !! "bad" = Some 0) by (vm_compute; reflexivity).
  assert (Hj1 : heap tick_armed !! 0
                = Some (fresh_job "tick" interval None (Some 0)))
    by (vm_compute; reflexivity).
  assert (Hj2 : heap bad_state !! 0 = Some (fresh_job "bad" cron None None))
    by (vm_compute; reflexivity).
  rewrite Hk1 in H1. rewrite Hk2 in H2.
  destruct H1 as (j1 & Hl1 & H1). destruct H2 as (j2 & Hl2 & H2).
  rewrite Hj1 in Hl1. injection Hl1 as <-.
  rewrite Hj2 in Hl2. injection Hl2 as <-.
  simpl in H1, H2. destruct H2 as (_ & _ & H2).
  split_and!; [exact reachable_tick_armed| |exact Hb|exact H2].
  rewrite H1. vm_compute. reflexivity.
Defined.

Lemma queueJob_routes_witness :
  truthy (prop (assign [Some spec_defaults; config declared_interval]) "enable")
  = true ∧
  queueJob spec_defaults accepts declared_interval init
  = scheduleIntervalJob "beat" (VNum 1000) (VFun 2)
      (Some (assign [Some spec_defaults; config declared_interval])) VUndef init.
Proof.
  assert (Hen : truthy (prop (assign [Some spec_defaults;
                                      config declared_interval]) "enable")
                = true) by (vm_compute; reflexivity).
  split; [exact Hen|].
  exact (proj2 (queueJob_routes spec_defaults accepts declared_interval init) Hen).
Defined.

(** * Metadata helpers

    The three helpers that collect declared jobs as reflection metadata
    ([extendArrayMetadata], [extendMetadata], [getMetadata]), over a model of
    the two [Reflect] operations they call. *)

Module Metadata.

(** A metadata value: an array, or any other value ([undefined] included). *)
Inductive meta :=
  | MArray (items : list val)
  | MValue (v : val).

(** An object that metadata is attached to, with the objects of its
    prototype chain, nearest first. *)
Record target := mkTarget {
  self : nat;
  protos : list nat;
}.

(** Own metadata, by object and metadata key. *)
Abbreviation store := (gmap (nat * string) meta).

Definition truthy_meta (v : meta) : bool :=
  match v with
  | MArray _ => true
  | MValue v => truthy v
  end.

(** The first own metadata along a chain of objects. *)
Fixpoint lookup_chain (m : store) (k : string) (chain : list nat) : meta :=
  match chain with
  | [] => MValue VUndef
  | o :: chain' =>
      match m !! (o, k) with
      | Some v => v
      | None => lookup_chain m k chain'
      end
  end.

(** [Reflect.getMetadata(key, target)]: own metadata, else the prototype
    chain's, else [undefined]. *)
Definition Reflect_getMetadata (k : string) (t : target) (m : store) : meta :=
  lookup_chain m k (self t :: protos t).

(** [Reflect.defineMetadata(key, value, target)]: own metadata of the
    target. *)
Definition Reflect_defineMetadata (k : string) (v : meta) (t : target)
    (m : store) : store :=
  <[(self t, k) := v]> m.

(** [[...v]]: the elements of an array, the characters of a string; any
    other value is not iterable. *)
Definition iterate (v : meta) : option (list val) :=
  match v with
  | MArray xs => Some xs
  | MValue (VStr s) =>
      Some ((λ c, VStr (String c EmptyString)) <$> String.list_ascii_of_string s)
  | MValue _ => None
  end.

(** [v || []] *)
Definition or_empty (v : meta) : meta :=
  if truthy_meta v then v else MArray [].

Definition extendArrayMetadata (k : string) (metadata : list val) (t : target)
    (m : store) : result unit * store :=
  let previousValue := or_empty (Reflect_getMetadata k t m) in
  match iterate previousValue with
  | Some xs => (Ret tt, Reflect_defineMetadata k (MArray (xs ++ metadata)) t m)
  | None => (Throw TypeError, m)
  end.

Definition extendMetadata (k : string) (metadata : val) (t : target)
    (m : store) : result unit * store :=
  let previousValue := or_empty (Reflect_getMetadata k t m) in
  match iterate previousValue with
  | Some xs => (Ret tt, Reflect_defineMetadata k (MArray (xs ++ [metadata])) t m)
  | None => (Throw TypeError, m)
  end.

Fixpoint getMetadata (k : string) (targets : list target) (m : store) : meta :=
  match targets with
  | [] => MValue VUndef
  | t :: targets' =>
      let metadata := Reflect_getMetadata k t m in
      if truthy_meta metadata then metadata else getMetadata k targets' m
  end.

(** What the helpers extend: the previous value as the spread sees it. *)
Definition previous (k : string) (t : target) (m : store) : option (list val) :=
  iterate (or_empty (Reflect_getMetadata k t m)).

Lemma lookup_chain_insert_head m k o chain v :
  lookup_chain (<[(o, k) := v]> m) k (o :: chain) = v.
Proof. simpl. by rewrite lookup_insert_eq. Qed.

Lemma lookup_chain_insert_other m k k' o chain v :
  (o ∉ chain ∨ k' ≠ k) →
  lookup_chain (<[(o, k) := v]> m) k' chain = lookup_chain m k' chain.
Proof.
  intros Hfar. induction chain as [|o' chain IH]; simpl; [done|].
  rewrite lookup_insert_ne.
  - destruct (m !! (o', k')); [done|]. apply IH.
    destruct Hfar as [Hout|?]; [left|by right].
    intros ?. apply Hout. by right.
  - intros [= -> ->]. destruct Hfar as [Hout|?]; [|done].
    apply Hout. by left.
Qed.

Lemma defined_is_own k v t m :
  Reflect_getMetadata k t (Reflect_defineMetadata k v t m) = v.
Proof. apply lookup_chain_insert_head. Qed.

Lemma previous_array k t m xs :
  Reflect_getMetadata k t m = MArray xs → previous k t m = Some xs.
Proof. unfold previous, or_empty. by intros ->. Qed.

(** X18: [extendMetadata] appends: when the metadata the target has (its own
    or inherited, an absent or falsy value counting as the empty array)
    spreads to [xs], the call returns normally and the target's metadata is
    then the array [xs] followed by the new item. *)
Theorem extendMetadata_appends (k : string) (v : val) (t : target) (m : store)
    (xs : list val) :
  previous k t m = Some xs →
  (extendMetadata k v t m).1 = Ret tt ∧
  Reflect_getMetadata k t (extendMetadata k v t m).2 = MArray (xs ++ [v]) ∧
  previous k t (extendMetadata k v t m).2 = Some (xs ++ [v]).
Proof.
  intros Hp. unfold extendMetadata.
  unfold previous in Hp. rewrite Hp; simpl.
  split; [done|]. rewrite defined_is_own. split; [done|].
  apply previous_array, defined_is_own.
Qed.

(** X19: two calls of [extendArrayMetadata] on the same key and target do what
    one call with the concatenated array does: same result, same store. *)
Theorem extendArrayMetadata_twice (k : string) (a b : list val) (t : target)
    (m : store) :
  is_Some (previous k t m) →
  extendArrayMetadata k b t (extendArrayMetadata k a t m).2
  = extendArrayMetadata k (a ++ b) t m.
Proof.
  intros [xs Hxs]. unfold extendArrayMetadata at 2 3.
  unfold previous in Hxs. rewrite Hxs; simpl.
  unfold extendArrayMetadata.
  rewrite defined_is_own; simpl.
  unfold Reflect_defineMetadata. by rewrite insert_insert_eq, (assoc_L (++)).
Qed.

(** X20: extending a target writes its own metadata only: the metadata of the
    objects of its prototype chain stays as it was (the inherited array is
    copied, not changed), and so does what [Reflect.getMetadata] gives for
    any other key and for any target that does not have the extended object
    on its chain. *)
Theorem extend_touches_own_only (k : string) (v : val) (t : target) (m : store) :
  let m' := (extendMetadata k v t m).2 in
  (∀ o k', o ≠ self t ∨ k' ≠ k → m' !! (o, k') = m !! (o, k')) ∧
  (∀ t' k', (self t ≠ self t' ∧ self t ∉ protos t') ∨ k' ≠ k →
            Reflect_getMetadata k' t' m' = Reflect_getMetadata k' t' m).
Proof.
  intros m'. unfold m', extendMetadata.
  destruct (iterate _) as [xs|]; simpl; [|done].
  unfold Reflect_defineMetadata. split.
  - intros o k' Hfar. apply lookup_insert_ne. intros [= <- <-].
    by destruct Hfar.
  - intros t' k' Hfar. unfold Reflect_getMetadata.
    apply lookup_chain_insert_other.
    destruct Hfar as [[Hne Hout]|?]; [left|by right].
    intros [?|?]%elem_of_cons; done.
Qed.

(** X21: [getMetadata] answers with the metadata of the first target whose
    metadata is truthy, an empty array included, and with [undefined] when
    there is none, in particular for an empty list of targets. *)
Theorem getMetadata_first_truthy (k : string) (m : store)
    (skipped : list target) (t : target) (rest : list target) :
  (∀ t', t' ∈ skipped → truthy_meta (Reflect_getMetadata k t' m) = false) →
  (truthy_meta (Reflect_getMetadata k t m) = true →
   getMetadata k (skipped ++ t :: rest) m = Reflect_getMetadata k t m) ∧
  getMetadata k skipped m = MValue VUndef.
Proof.
  intros Hskip. induction skipped as [|t0 skipped IH]; simpl.
  - split; [|done]. by intros ->.
  - rewrite (Hskip t0) by (by left).
    apply IH. intros t' Ht'. apply Hskip. by right.
Qed.

(** A class and a subclass: the subclass has its parent's prototype on its
    chain. *)
Definition parent : target := mkTarget 1 [].
Definition child : target := mkTarget 2 [1].
Definition stranger : target := mkTarget 3 [].

Definition jobs_key : string := "schedule:jobs".

(** The parent has one declared job. *)
Definition one_job : store :=
  (extendMetadata jobs_key (VStr "cronJob") parent ∅).2.

Lemma extendMetadata_appends_witness :
  previous jobs_key child one_job = Some [VStr "cronJob"] ∧
  Reflect_getMetadata jobs_key child
    (extendMetadata jobs_key (VStr "onceJob") child one_job).2
  = MArray [VStr "cronJob"; VStr "onceJob"].
Proof.
  assert (Hp : previous jobs_key child one_job = Some [VStr "cronJob"])
    by (vm_compute; reflexivity).
  split; [exact Hp|].
  exact (proj1 (proj2 (extendMetadata_appends jobs_key (VStr "onceJob") child
                         one_job [VStr "cronJob"] Hp))).
Defined.

Lemma extendArrayMetadata_twice_witness :
  is_Some (previous jobs_key child one_job) ∧
  extendArrayMetadata jobs_key [VNum 2] child
    (extendArrayMetadata jobs_key [VNum 1] child one_job).2
  = extendArrayMetadata jobs_key [VNum 1; VNum 2] child one_job.
Proof.
  assert (Hp : is_Some (previous jobs_key child one_job)).
  { exists [VStr "cronJob"]. vm_compute. reflexivity. }
  split; [exact Hp|].
  exact (extendArrayMetadata_twice jobs_key [VNum 1] [VNum 2] child one_job Hp).
Defined.

Lemma getMetadata_first_truthy_witness :
  truthy_meta (Reflect_getMetadata jobs_key stranger one_job) = false ∧
  truthy_meta (Reflect_getMetadata jobs_key child one_job) = true ∧
  getMetadata jobs_key [stranger; child; parent] one_job
  = MArray [VStr "cronJob"].
Proof.
  assert (Hs : ∀ t', t' ∈ [stranger] →
                 truthy_meta (Reflect_getMetadata jobs_key t' one_job) = false).
  { intros t' ->%list_elem_of_singleton. vm_compute. reflexivity. }
  assert (Hc : truthy_meta (Reflect_getMetadata jobs_key child one_job) = true)
    by (vm_compute; reflexivity).
  split_and!; [apply Hs; by left|exact Hc|].
  pose proof (proj1 (getMetadata_first_truthy jobs_key one_job [stranger] child
                       [parent] Hs) Hc) as Hget.
  vm_compute in Hget. vm_compute. exact Hget.
Defined.

Lemma extend_touches_own_only_witness :
  self child ≠ self parent ∧
  Reflect_getMetadata jobs_key parent
    (extendMetadata jobs_key (VStr "onceJob") child one_job).2
  = Reflect_getMetadata jobs_key parent one_job ∧
  Reflect_getMetadata jobs_key parent one_job = MArray [VStr "cronJob"].
Proof.
  split_and!; [discriminate| |vm_compute; reflexivity].
  apply (proj2 (extend_touches_own_only jobs_key (VStr "onceJob") child one_job)
           parent jobs_key).
  left. split; [discriminate|]. apply not_elem_of_nil.
Defined.

End Metadata.
